(** * Monocle spawn cache ([monocle/spawns.py]): model and properties

    The module keeps, per process, one registry object: [Spawns] or
    [MoreSpawns], both derived from [BaseSpawns].  The registry is modelled
    as a record of its instance attributes and every method as a function
    from the old record to the new one (plus the returned value).

    Conventions of the model:
    - coordinates are opaque hashable keys ([Coord], with decidable
      equality); a point is the pair [(lat, lon)];
    - timestamps and seconds are integers ([Z]); Python's [%] on a
      positive modulus is [Z.modulo];
    - altitudes are rationals ([Q]);
    - a [dict] whose order matters ([OrderedDict], and the insertion-ordered
      local [known] of [update]) is an association list with unique keys;
      [despawn_times] and [altitudes] are [gmap]s, [unknown] and
      [cell_points] are [gset]s;
    - collaborators outside the module (database rows, boundary object,
      configuration, elevation service, random source, pickle store) enter
      as parameters. *)

From Stdlib Require Import ZArith QArith Lia Permutation.
From Stdlib Require Strings.Byte.
From stdpp Require Import base option list gmap sets sorting strings.

Local Open Scope Z_scope.
Set Warnings "-clear-no-such-hyp".

#[local] Instance byte_eq_dec : EqDecision Byte.byte := Byte.byte_eq_dec.

(** ** Insertion-ordered dictionaries *)

Section odict.
Context {K V : Type} `{EqDecision K}.

(** [d[k] = v]: an existing key keeps its position, a new key goes last. *)
Fixpoint od_set (k : K) (v : V) (d : list (K * V)) : list (K * V) :=
  match d with
  | [] => [(k, v)]
  | (k', v') :: d' =>
      if decide (k' = k) then (k', v) :: d' else (k', v') :: od_set k v d'
  end.

(** [d[k]], [None] standing for [KeyError]. *)
Fixpoint od_get (k : K) (d : list (K * V)) : option V :=
  match d with
  | [] => None
  | (k', v') :: d' => if decide (k' = k) then Some v' else od_get k d'
  end.

(** [k in d] *)
Definition od_mem (k : K) (d : list (K * V)) : bool :=
  bool_decide (is_Some (od_get k d)).

Definition od_keys (d : list (K * V)) : list K := d.*1.

(** a well-formed dictionary has every key once *)
Definition od_wf (d : list (K * V)) : Prop := NoDup (od_keys d).
End odict.

(** ** [sorted(items, key=...)]: the stable sort *)

Section sorted.
Context {A : Type} (key : A → Z).

Fixpoint insert_by (x : A) (l : list A) : list A :=
  match l with
  | [] => [x]
  | y :: l' => if key x <=? key y then x :: y :: l' else y :: insert_by x l'
  end.

(** Python's [sorted] is stable; so is this insertion sort, and a stable
    sort has one possible result. *)
Definition sorted_by (l : list A) : list A := foldr insert_by [] l.

Definition ascending (l : list A) : Prop :=
  StronglySorted (λ a b, key a ≤ key b) l.
End sorted.

(** ** Data model *)

(** What a fetch of the elevation service can do: return, or raise. *)
Inductive exn :=
  | IndexError            (* empty altitude response *)
  | KeyError              (* invalid altitude response *)
  | OtherException (name : string)  (* any other subclass of [Exception] *)
  | NotAnException (name : string). (* e.g. KeyboardInterrupt: not caught *)

(** the handlers [except IndexError], [except KeyError] and
    [except Exception] between them catch these *)
Definition is_exception (e : exn) : bool :=
  match e with
  | NotAnException _ => false
  | _ => true
  end.

Inductive outcome (A : Type) :=
  | Returned (a : A)
  | Raised (e : exn).
Arguments Returned {A} a.
Arguments Raised {A} e.

(** [conf]: the settings the module reads. *)
Record Conf := {
  ALT_PRECISION : Z;
  BOUNDARIES : bool;        (* [bool(conf.BOUNDARIES)] *)
  LAST_MIGRATION : Z;
  STAY_WITHIN_MAP : bool;
  DB_ENGINE : string;
  MORE_POINTS : bool;
}.

Section Monocle.
Context {Coord : Type} `{Countable Coord}.

Abbreviation Point := (Coord * Coord)%type.

(** [bounds]: rectangle, containment test and hash of the boundary. *)
Record Bounds := {
  south : Coord; north : Coord; west : Coord; east : Coord;
  contains : Point → bool;      (* [point in bounds] *)
  bounds_hash : Z;              (* [hash(bounds)] *)
}.

(** A row of [db.Spawnpoint], with the columns [update] reads. *)
Record Spawnpoint := {
  spawn_id : Z;
  lat : Coord;
  lon : Coord;
  alt : option Q;
  updated : option Z;
  duration : Z;
  despawn_time : Z;
}.

(** The instance attributes ([self.__dict__]).  [cell_points] exists on
    [MoreSpawns] only, the attribute [cells_count] on [Spawns] only
    ([MoreSpawns] computes it).  The logger is left out. *)
Record spawns := {
  known : list (Point * option (Z * Z));
  despawn_times : gmap Z Z;
  unknown : gset Point;
  altitudes : gmap Point Q;
  class_version : Z;
  db_hash : list Byte.byte;
  cell_points : option (gset Point);
  cells_count : option Z;
}.

Definition set_known v (s : spawns) : spawns :=
  {| known := v; despawn_times := despawn_times s; unknown := unknown s;
     altitudes := altitudes s; class_version := class_version s;
     db_hash := db_hash s; cell_points := cell_points s;
     cells_count := cells_count s |}.
Definition set_despawn_times v (s : spawns) : spawns :=
  {| known := known s; despawn_times := v; unknown := unknown s;
     altitudes := altitudes s; class_version := class_version s;
     db_hash := db_hash s; cell_points := cell_points s;
     cells_count := cells_count s |}.
Definition set_unknown v (s : spawns) : spawns :=
  {| known := known s; despawn_times := despawn_times s; unknown := v;
     altitudes := altitudes s; class_version := class_version s;
     db_hash := db_hash s; cell_points := cell_points s;
     cells_count := cells_count s |}.
Definition set_altitudes v (s : spawns) : spawns :=
  {| known := known s; despawn_times := despawn_times s; unknown := unknown s;
     altitudes := v; class_version := class_version s;
     db_hash := db_hash s; cell_points := cell_points s;
     cells_count := cells_count s |}.
Definition set_cell_points v (s : spawns) : spawns :=
  {| known := known s; despawn_times := despawn_times s; unknown := unknown s;
     altitudes := altitudes s; class_version := class_version s;
     db_hash := db_hash s; cell_points := v;
     cells_count := cells_count s |}.
Definition set_cells_count v (s : spawns) : spawns :=
  {| known := known s; despawn_times := despawn_times s; unknown := unknown s;
     altitudes := altitudes s; class_version := class_version s;
     db_hash := db_hash s; cell_points := cell_points s;
     cells_count := v |}.

(** The dictionary [pickle] writes and [load_pickle] returns: every key may
    be there or not. *)
Record pickled := {
  p_known : option (list (Point * option (Z * Z)));
  p_despawn_times : option (gmap Z Z);
  p_unknown : option (gset Point);
  p_altitudes : option (gmap Point Q);
  p_class_version : option Z;
  p_db_hash : option (list Byte.byte);
  p_cell_points : option (gset Point);
  p_cells_count : option Z;
  p_bounds_hash : option Z;
  p_alt_precision : option Z;
  p_last_migration : option Z;
}.

(** What [load_pickle('spawns', raise_exception=True)] gives. *)
Inductive loaded :=
  | NoPickle                      (* raises [FileNotFoundError] *)
  | NotADict                      (* an object whose subscript raises [TypeError] *)
  | PickleDict (state : pickled).

(** The pickle store holds the last dumped dictionary. *)
Definition dump_pickle (state : pickled) : loaded := PickleDict state.

(** What one call of [get_altitude] gets from outside: the answer of the
    elevation service and the random draws. *)
Record alt_oracle := {
  fetch : Point → outcome Q;     (* [utils.get_altitude(point)] *)
  random_altitude : Q;           (* [utils.random_altitude()] *)
  uniform : Q → Q → Q;           (* [random.uniform(a, b)] *)
}.

(** The collaborators of the module: [conf], [bounds] and the helpers of
    [utils] whose code is elsewhere. *)
Record Env := {
  conf : Conf;
  bounds : Bounds;
  Cleb : Coord → Coord → bool;                  (* [<=] on coordinates *)
  sha256_digest : string → list Byte.byte;      (* [sha256(s.encode()).digest()] *)
  round_coords : Point → Z → Point;             (* [utils.round_coords] *)
  get_all_altitudes : option bool → gmap Point Q;
    (* [utils.get_all_altitudes(bound)]; [None]: called without argument *)
}.

Variable E : Env.

(** Modelled from the spec: [utils.get_current_hour(now)] is not in the
    sources; the spec has it as the start of the hour containing the given
    timestamp. *)
Definition get_current_hour (now : Z) : Z := now - now mod 3600.

(** ** [BaseSpawns] *)

Definition BaseSpawns_init : spawns :=
  {| known := []; despawn_times := ∅; unknown := ∅; altitudes := ∅;
     class_version := 2; db_hash := sha256_digest E (DB_ENGINE (conf E));
     cell_points := None; cells_count := None |}.

(** [__len__] and [__bool__] *)
Definition len (self : spawns) : Z := Z.of_nat (size (despawn_times self)).
Definition to_bool (self : spawns) : bool := len self >? 0.

(** *** [update] *)

(** the rows the query yields: filtered to the rectangle when asked *)
Definition in_rectangle (s : Spawnpoint) : bool :=
  Cleb E (south (bounds E)) (lat s) && Cleb E (lat s) (north (bounds E))
  && Cleb E (west (bounds E)) (lon s) && Cleb E (lon s) (east (bounds E)).

Definition query (rows : list Spawnpoint) : list Spawnpoint :=
  if BOUNDARIES (conf E) || STAY_WITHIN_MAP (conf E)
  then filter (λ s, in_rectangle s = true) rows
  else rows.

Definition point_of (s : Spawnpoint) : Point := (lat s, lon s).

(** [not spawn.updated or spawn.updated <= last_migration] *)
Definition stale (s : Spawnpoint) : bool :=
  match updated s with
  | None => true
  | Some u => (u =? 0) || (u <=? LAST_MIGRATION (conf E))
  end.

Definition spawn_time_of (s : Spawnpoint) : Z :=
  if duration s =? 60 then despawn_time s
  else (despawn_time s + 1800) mod 3600.

(** [bound and point not in bounds] *)
Definition out_of_bounds (s : Spawnpoint) : bool :=
  BOUNDARIES (conf E) && negb (contains (bounds E) (point_of s)).

(** a row the loop records as known: it survives the boundary test and is
    newer than the last migration *)
Definition recorded (s : Spawnpoint) : Prop :=
  out_of_bounds s = false ∧ stale s = false.

(** The body of the loop, on the variables it writes: the instance and the
    local dictionary [known]. *)
Definition update_step (alts : bool)
    (ls : spawns * list (Point * (Z * Z))) (s : Spawnpoint)
    : spawns * list (Point * (Z * Z)) :=
  let '(self, kn) := ls in
  let point := point_of s in
  if out_of_bounds s then ls
  else
    let self :=
      match alt s with
      | Some a =>
          if alts
          then set_altitudes
                 (<[round_coords E point (ALT_PRECISION (conf E)) := a]>
                    (altitudes self))
                 self
          else self
      | None => self
      end in
    if stale s then (set_unknown ({[point]} ∪ unknown self) self, kn)
    else
      (set_despawn_times
         (<[spawn_id s := despawn_time s]> (despawn_times self)) self,
       od_set point (spawn_id s, spawn_time_of s) kn).

Definition update (rows : list Spawnpoint) (self : spawns) : spawns :=
  let alts := bool_decide (size (altitudes self) = 0%nat) in
  let '(self, kn) := foldl (update_step alts) (self, []) (query rows) in
  let self :=
    set_known ((λ e, (e.1, Some e.2)) <$> sorted_by (λ e, e.2.2) kn) self in
  if bool_decide (size (altitudes self) = 0%nat)
  then set_altitudes (get_all_altitudes E (Some (BOUNDARIES (conf E)))) self
  else self.

(** *** [get_altitude] *)

Definition get_altitude (o : alt_oracle) (point : Point) (randomize : Q)
    (self : spawns) : outcome Q * spawns :=
  let point := round_coords E point (ALT_PRECISION (conf E)) in
  match altitudes self !! point with
  | Some alt =>
      (Returned (if Qeq_bool randomize 0 then alt
                 else uniform o (alt - randomize)%Q (alt + randomize)%Q),
       self)
  | None =>
      match fetch o point with
      | Returned alt =>
          (Returned alt, set_altitudes (<[point := alt]> (altitudes self)) self)
      | Raised IndexError => (Returned (random_altitude o), self)
      | Raised KeyError => (Returned (random_altitude o), self)
      | Raised (OtherException _) => (Returned (random_altitude o), self)
      | Raised (NotAnException n) => (Raised (NotAnException n), self)
      end
  end.

(** *** [after_last]; [now] is what [time()] returns *)

Definition after_last (now : Z) (self : spawns) : bool :=
  match last (od_keys (known self)) with
  | None => false                          (* StopIteration *)
  | Some k =>
      match od_get k (known self) with
      | None => false                      (* KeyError *)
      | Some None => false                 (* TypeError: [None[1]] *)
      | Some (Some (_, seconds)) => now mod 3600 >? seconds
      end
  end.

(** *** [get_despawn_time] *)

Definition get_despawn_time (spawn_id seen : Z) (self : spawns) : option Z :=
  let hour := get_current_hour seen in
  match despawn_times self !! spawn_id with
  | Some d =>
      let despawn_time := d + hour in
      Some (if seen >? despawn_time then despawn_time + 3600 else despawn_time)
  | None => None                           (* KeyError *)
  end.

(** *** [unpickle] and [pickle] *)

(** [self.__dict__.update(state)]: every key of [state] overwrites the
    attribute of that name.  The keys [bounds_hash], [alt_precision] and
    [last_migration] become attributes that nothing reads. *)
Definition dict_update (state : pickled) (self : spawns) : spawns :=
  {| known := default (known self) (p_known state);
     despawn_times := default (despawn_times self) (p_despawn_times state);
     unknown := default (unknown self) (p_unknown state);
     altitudes := default (altitudes self) (p_altitudes state);
     class_version := default (class_version self) (p_class_version state);
     db_hash := default (db_hash self) (p_db_hash state);
     cell_points :=
       match p_cell_points state with
       | Some c => Some c
       | None => cell_points self
       end;
     cells_count :=
       match p_cells_count state with
       | Some c => Some c
       | None => cells_count self
       end |}.

Definition BaseSpawns_unpickle (file : loaded) (self : spawns)
    : bool * spawns :=
  match file with
  | NoPickle => (false, self)              (* FileNotFoundError *)
  | NotADict => (false, self)              (* TypeError *)
  | PickleDict state =>
      match p_class_version state, p_db_hash state,
            p_bounds_hash state, p_last_migration state with
      | Some cv, Some dh, Some bh, Some lm =>
          if bool_decide (cv = class_version self)
             && bool_decide (dh = db_hash self)
             && bool_decide (bh = bounds_hash (bounds E))
             && bool_decide (lm = LAST_MIGRATION (conf E))
          then
            let self := dict_update state self in
            match p_alt_precision state with
            | None => (false, self)        (* KeyError, after the update *)
            | Some ap =>
                if bool_decide (ap ≠ ALT_PRECISION (conf E))
                then (true, set_altitudes (get_all_altitudes E None) self)
                else (true, self)
            end
          else (false, self)
      | _, _, _, _ => (false, self)        (* KeyError *)
      end
  end.

(** the dictionary [pickle] builds: a copy of the attributes without
    [log] and [cells_count], with the three keys of the configuration *)
Definition pickle_state (self : spawns) : pickled :=
  {| p_known := Some (known self);
     p_despawn_times := Some (despawn_times self);
     p_unknown := Some (unknown self);
     p_altitudes := Some (altitudes self);
     p_class_version := Some (class_version self);
     p_db_hash := Some (db_hash self);
     p_cell_points := cell_points self;
     p_cells_count := None;
     p_bounds_hash := Some (bounds_hash (bounds E));
     p_alt_precision := Some (ALT_PRECISION (conf E));
     p_last_migration := Some (LAST_MIGRATION (conf E)) |}.

Definition pickle (self : spawns) : loaded := dump_pickle (pickle_state self).

(** the four fields [unpickle] compares are there and agree with the
    running configuration *)
Definition compatible (state : pickled) (self : spawns) : Prop :=
  p_class_version state = Some (class_version self)
  ∧ p_db_hash state = Some (db_hash self)
  ∧ p_bounds_hash state = Some (bounds_hash (bounds E))
  ∧ p_last_migration state = Some (LAST_MIGRATION (conf E)).

(** ** [Spawns] *)

Definition Spawns_init : spawns := set_cells_count (Some 0) BaseSpawns_init.

Definition Spawns_add_known (spawn_id despawn_time : Z) (point : Point)
    (self : spawns) : spawns :=
  let self :=
    set_despawn_times (<[spawn_id := despawn_time]> (despawn_times self)) self in
  set_unknown (unknown self ∖ {[point]}) self.

Definition Spawns_add_unknown (point : Point) (self : spawns) : spawns :=
  set_unknown ({[point]} ∪ unknown self) self.

Definition Spawns_unpickle (file : loaded) (self : spawns) : bool * spawns :=
  let '(result, self) := BaseSpawns_unpickle file self in
  (result, set_cell_points None self).

(** ** [MoreSpawns]

    An instance of this class always has the attribute [cell_points]: the
    constructor sets it and no method of the class deletes it. *)

Definition MoreSpawns_init : spawns := set_cell_points (Some ∅) BaseSpawns_init.

Definition MoreSpawns_add_known (spawn_id despawn_time : Z) (point : Point)
    (self : spawns) : spawns :=
  let self :=
    set_despawn_times (<[spawn_id := despawn_time]> (despawn_times self)) self in
  let self := set_known (od_set point None (known self)) self in
  let self := set_unknown (unknown self ∖ {[point]}) self in
  set_cell_points ((λ c, c ∖ {[point]}) <$> cell_points self) self.

Definition MoreSpawns_add_unknown (point : Point) (self : spawns) : spawns :=
  let self := set_unknown ({[point]} ∪ unknown self) self in
  set_cell_points ((λ c, c ∖ {[point]}) <$> cell_points self) self.

Definition in_cell_points (point : Point) (self : spawns) : bool :=
  match cell_points self with
  | Some c => bool_decide (point ∈ c)
  | None => false
  end.
Definition in_known (point : Point) (self : spawns) : bool :=
  od_mem point (known self).
Definition in_unknown (point : Point) (self : spawns) : bool :=
  bool_decide (point ∈ unknown self).

(** [point in chain(self.cell_points, self.known, self.unknown)] *)
Definition MoreSpawns_have_point (point : Point) (self : spawns) : bool :=
  in_cell_points point self || in_known point self || in_unknown point self.

(** [sys.modules[__name__] = MoreSpawns() if conf.MORE_POINTS else Spawns()] *)
Definition module_instance : spawns :=
  if MORE_POINTS (conf E) then MoreSpawns_init else Spawns_init.

(** *** [total_length], [items] and [mystery_gen]

    [cells_count] is an attribute on [Spawns] and a property on
    [MoreSpawns]; reading an attribute that is not there raises
    [AttributeError], here [None]. *)

Definition MoreSpawns_cells_count (self : spawns) : option Z :=
  (λ c, Z.of_nat (size c)) <$> cell_points self.

Definition Spawns_total_length (self : spawns) : option Z :=
  (λ c, len self + Z.of_nat (size (unknown self)) + c) <$> cells_count self.

Definition MoreSpawns_total_length (self : spawns) : option Z :=
  (λ c, len self + Z.of_nat (size (unknown self)) + c)
    <$> MoreSpawns_cells_count self.

(** [items]: the entries of the known mapping, in its order ([MoreSpawns]
    hands out a copy) *)
Definition Spawns_items (self : spawns) : list (Point * option (Z * Z)) :=
  known self.
Definition MoreSpawns_items (self : spawns) : list (Point * option (Z * Z)) :=
  known self.

(** [mystery_gen]: the points a full run of the generator yields.  A set is
    iterated in an order the language does not fix; [elements] stands for
    it. *)
Definition Spawns_mystery_gen (self : spawns) : list Point :=
  elements (unknown self).


(** *** The loop of [update], one written variable at a time *)

Definition seen_altitudes (alts : bool) (a : gmap Point Q)
    (q : list Spawnpoint) : gmap Point Q :=
  foldl (λ a s,
           if out_of_bounds s then a
           else match alt s with
                | Some v =>
                    if alts
                    then <[round_coords E (point_of s) (ALT_PRECISION (conf E)) := v]> a
                    else a
                | None => a
                end) a q.

Definition seen_unknown (u : gset Point) (q : list Spawnpoint) : gset Point :=
  foldl (λ u s,
           if out_of_bounds s then u
           else if stale s then {[point_of s]} ∪ u else u) u q.

Definition seen_despawn_times (d : gmap Z Z) (q : list Spawnpoint)
    : gmap Z Z :=
  foldl (λ d s,
           if out_of_bounds s then d
           else if stale s then d else <[spawn_id s := despawn_time s]> d) d q.

Definition seen_known (kn : list (Point * (Z * Z))) (q : list Spawnpoint)
    : list (Point * (Z * Z)) :=
  foldl (λ kn s,
           if out_of_bounds s then kn
           else if stale s then kn
                else od_set (point_of s) (spawn_id s, spawn_time_of s) kn) kn q.

(** ** Sequences of calls *)

Inductive call :=
  | AddKnown (spawn_id despawn_time : Z) (point : Point)
  | AddUnknown (point : Point).

Definition call_point (c : call) : Point :=
  match c with
  | AddKnown _ _ p => p
  | AddUnknown p => p
  end.

Definition Spawns_call (self : spawns) (c : call) : spawns :=
  match c with
  | AddKnown i t p => Spawns_add_known i t p self
  | AddUnknown p => Spawns_add_unknown p self
  end.

Definition MoreSpawns_call (self : spawns) (c : call) : spawns :=
  match c with
  | AddKnown i t p => MoreSpawns_add_known i t p self
  | AddUnknown p => MoreSpawns_add_unknown p self
  end.

(** what an [add_known] call records: identifier and seconds *)
Definition call_id (c : call) : option (Z * Z) :=
  match c with
  | AddKnown i t _ => Some (i, t)
  | AddUnknown _ => None
  end.

(** the last call of a sequence that was given the point *)
Definition last_call_on (point : Point) (calls : list call) : option call :=
  last (filter (λ c, call_point c = point) calls).

Definition is_add_known (c : call) : bool :=
  match c with
  | AddKnown _ _ _ => true
  | AddUnknown _ => false
  end.

Definition Spawns_run (calls : list call) (self : spawns) : spawns :=
  foldl Spawns_call self calls.
Definition MoreSpawns_run (calls : list call) (self : spawns) : spawns :=
  foldl MoreSpawns_call self calls.

(** ** Predicates of the specification *)

(** in how many of the buckets known, unknown, provisional a point is *)
Definition bucket_count (point : Point) (self : spawns) : nat :=
  (Nat.b2n (in_known point self) + Nat.b2n (in_unknown point self)
   + Nat.b2n (in_cell_points point self))%nat.

(** the seconds a [known] entry carries; a placeholder carries none *)
Definition entry_seconds (e : Point * option (Z * Z)) : option Z :=
  snd <$> e.2.

(** every entry carries its seconds and they ascend *)
Definition known_sorted (kn : list (Point * option (Z * Z))) : Prop :=
  ∃ secs, entry_seconds <$> kn = Some <$> secs ∧ ascending id secs.

(** the seconds of the entries that carry some, in the order of the mapping *)
Definition known_seconds (kn : list (Point * option (Z * Z))) : list Z :=
  omap entry_seconds kn.

(** the last entry carries seconds and no entry carries more *)
Definition last_is_max (kn : list (Point * option (Z * Z))) : Prop :=
  ∃ p i s, last kn = Some (p, Some (i, s)) ∧ Forall (λ s', s' ≤ s) (known_seconds kn).

End Monocle.

Arguments Bounds Coord : clear implicits.
Arguments Spawnpoint Coord : clear implicits.
Arguments spawns Coord {_ _}.
Arguments pickled Coord {_ _}.
Arguments loaded Coord {_ _}.
Arguments alt_oracle Coord : clear implicits.
Arguments Env Coord {_ _}.
Arguments call Coord : clear implicits.
Arguments update_step : simpl never.

(** ** The scenario of the specification, on integer coordinates *)

Definition scenario_conf : Conf :=
  {| ALT_PRECISION := 2; BOUNDARIES := false; LAST_MIGRATION := 1000;
     STAY_WITHIN_MAP := false; DB_ENGINE := "sqlite:///db.sqlite";
     MORE_POINTS := true |}.

Definition scenario_bounds : Bounds Z :=
  {| south := -90; north := 90; west := -180; east := 180;
     contains := λ _, true; bounds_hash := 7 |}.

Definition scenario_env : Env Z :=
  {| conf := scenario_conf; bounds := scenario_bounds; Cleb := Z.leb;
     sha256_digest := λ _, [Byte.x2a];
     round_coords := λ p _, p;
     get_all_altitudes := λ _, {[ (0, 0) := 5%Q ]} |}.

(** one full-hour record and one half-hour record, both fresh *)
Definition scenario_rows : list (Spawnpoint Z) :=
  [ {| spawn_id := 1; lat := 1; lon := 2; alt := None; updated := Some 2000;
       duration := 60; despawn_time := 100 |};
    {| spawn_id := 2; lat := 3; lon := 4; alt := None; updated := Some 2000;
       duration := 30; despawn_time := 200 |} ].

Definition scenario_plain : spawns Z :=
  update scenario_env scenario_rows (Spawns_init scenario_env).
Definition scenario_more : spawns Z :=
  update scenario_env scenario_rows (MoreSpawns_init scenario_env).

Definition scenario_half_hour_row : Spawnpoint Z :=
  {| spawn_id := 2; lat := 3; lon := 4; alt := None; updated := Some 2000;
     duration := 30; despawn_time := 200 |}.

(** a new point is confirmed after the reconciliation *)
Definition scenario_more_added : spawns Z :=
  MoreSpawns_add_known 9 300 (5, 6) scenario_more.

(** a snapshot of [scenario_more] taken under another altitude precision *)
Definition scenario_old_state : pickled Z :=
  let state := pickle_state scenario_env scenario_more in
  {| p_known := p_known state; p_despawn_times := p_despawn_times state;
     p_unknown := p_unknown state; p_altitudes := p_altitudes state;
     p_class_version := p_class_version state;
     p_db_hash := p_db_hash state; p_cell_points := p_cell_points state;
     p_cells_count := p_cells_count state;
     p_bounds_hash := p_bounds_hash state;
     p_alt_precision := Some 3;
     p_last_migration := p_last_migration state |}.

(** an elevation service that answers with an invalid response *)
Definition scenario_oracle : alt_oracle Z :=
  {| fetch := λ _, Raised KeyError; random_altitude := 42%Q;
     uniform := λ a _, a |}.

(** a stale row that carries an altitude *)
Definition scenario_stale_row : Spawnpoint Z :=
  {| spawn_id := 3; lat := 7; lon := 8; alt := Some 12%Q; updated := Some 500;
     duration := 60; despawn_time := 40 |}.

(** an instance whose altitude cache holds one sample *)
Definition scenario_cached : spawns Z :=
  set_altitudes {[ (8, 9) := 77%Q ]} (MoreSpawns_init scenario_env).

(** an elevation service that answers, and one that is interrupted *)
Definition scenario_oracle_ok : alt_oracle Z :=
  {| fetch := λ _, Returned 310%Q; random_altitude := 42%Q;
     uniform := λ a _, a |}.
Definition scenario_oracle_interrupted : alt_oracle Z :=
  {| fetch := λ _, Raised (NotAnException "KeyboardInterrupt");
     random_altitude := 42%Q; uniform := λ a _, a |}.

(** the snapshot of [scenario_more] without its altitude precision *)
Definition scenario_no_precision : pickled Z :=
  let state := pickle_state scenario_env scenario_more in
  {| p_known := p_known state; p_despawn_times := p_despawn_times state;
     p_unknown := p_unknown state; p_altitudes := p_altitudes state;
     p_class_version := p_class_version state;
     p_db_hash := p_db_hash state; p_cell_points := p_cell_points state;
     p_cells_count := p_cells_count state;
     p_bounds_hash := p_bounds_hash state;
     p_alt_precision := None;
     p_last_migration := p_last_migration state |}.

(** the configuration of the scenario with another boundary *)
Definition scenario_env_moved : Env Z :=
  {| conf := scenario_conf;
     bounds := {| south := -90; north := 90; west := -180; east := 180;
                  contains := λ _, true; bounds_hash := 8 |};
     Cleb := Z.leb; sha256_digest := λ _, [Byte.x2a];
     round_coords := λ p _, p;
     get_all_altitudes := λ _, {[ (0, 0) := 5%Q ]} |}.

(** the configuration of the scenario with a polygon that keeps the points
    west of longitude 5 *)
Definition scenario_env_bounded : Env Z :=
  {| conf := {| ALT_PRECISION := 2; BOUNDARIES := true; LAST_MIGRATION := 1000;
                STAY_WITHIN_MAP := false; DB_ENGINE := "sqlite:///db.sqlite";
                MORE_POINTS := true |};
     bounds := {| south := -90; north := 90; west := -180; east := 180;
                  contains := λ p, p.2 <? 5; bounds_hash := 9 |};
     Cleb := Z.leb; sha256_digest := λ _, [Byte.x2a];
     round_coords := λ p _, p;
     get_all_altitudes := λ _, {[ (0, 0) := 5%Q ]} |}.

(** * Properties *)

(** ** Dictionaries *)

Section odict_facts.
Context {K V : Type} `{EqDecision K}.
Implicit Types (d : list (K * V)) (k : K) (v : V).

Lemma od_get_set_eq k v d : od_get k (od_set k v d) = Some v.
Proof.
  induction d as [|[k' v'] d IH]; simpl.
  - by rewrite decide_True.
  - destruct (decide (k' = k)) as [->|Hne]; simpl.
    + by rewrite decide_True.
    + by rewrite decide_False.
Qed.

Lemma od_get_set_ne k k' v d : k ≠ k' → od_get k' (od_set k v d) = od_get k' d.
Proof.
  intros Hne. induction d as [|[k0 v0] d IH]; simpl.
  - by rewrite decide_False.
  - destruct (decide (k0 = k)) as [->|Hk]; simpl.
    + by rewrite !decide_False.
    + destruct (decide (k0 = k')); done.
Qed.

Lemma od_get_None k d : od_get k d = None ↔ k ∉ od_keys d.
Proof.
  unfold od_keys. induction d as [|[k' v'] d IH]; simpl.
  - split; [intros _; apply not_elem_of_nil | done].
  - rewrite not_elem_of_cons. destruct (decide (k' = k)) as [->|Hne].
    + split; [done | intros [? _]; done].
    + rewrite IH. split; [intros ?; split; [congruence | done] | by intros [_ ?]].
Qed.

Lemma od_get_Some k v d : od_wf d → od_get k d = Some v ↔ (k, v) ∈ d.
Proof.
  unfold od_wf, od_keys. induction d as [|[k' v'] d IH]; simpl; intros Hwf.
  - split; [done | intros Hin; inversion Hin].
  - apply NoDup_cons in Hwf as [Hk' Hwf]. rewrite elem_of_cons.
    destruct (decide (k' = k)) as [->|Hne].
    + split; [intros [= ->]; by left |].
      intros [[= ->]|Hin]; [done |].
      destruct Hk'. apply list_elem_of_fmap. by exists (k, v).
    + rewrite (IH Hwf). split; [by right | intros [[= -> ->]|?]; done].
Qed.

Lemma od_keys_set k v d :
  od_keys (od_set k v d) = if od_mem k d then od_keys d else od_keys d ++ [k].
Proof.
  unfold od_mem, od_keys. induction d as [|[k' v'] d IH]; simpl; [done |].
  destruct (decide (k' = k)) as [->|Hne]; simpl; [done |].
  change (list_fmap _ _ fst ?l) with (l.*1). rewrite IH.
  by destruct (bool_decide (is_Some (od_get k d))).
Qed.

Lemma od_mem_true k d : od_mem k d = true ↔ k ∈ od_keys d.
Proof.
  unfold od_mem. rewrite bool_decide_eq_true, <- not_eq_None_Some, od_get_None.
  split; [apply dec_stable | by intros ? ?].
Qed.

Lemma od_wf_set k v d : od_wf d → od_wf (od_set k v d).
Proof.
  unfold od_wf. rewrite od_keys_set. intros Hwf.
  destruct (od_mem k d) eqn:Hmem; [done |].
  apply NoDup_app. split_and!; [done | | apply NoDup_singleton].
  intros x Hx ->%list_elem_of_singleton.
  apply od_mem_true in Hx. congruence.
Qed.

Lemma od_get_Permutation k d d' : od_wf d → d ≡ₚ d' → od_get k d = od_get k d'.
Proof.
  intros Hwf Hp.
  assert (od_wf d') as Hwf' by (unfold od_wf, od_keys in *; by rewrite <- Hp).
  destruct (od_get k d) as [v|] eqn:Hget.
  - symmetry. apply od_get_Some; [done |]. rewrite <- Hp. by apply od_get_Some.
  - symmetry. apply od_get_None. apply od_get_None in Hget.
    unfold od_keys in *. by rewrite <- Hp.
Qed.

Lemma od_get_fmap {W} (f : V → W) k d :
  od_get k ((λ e, (e.1, f e.2)) <$> d) = f <$> od_get k d.
Proof.
  induction d as [|[k' v'] d IH]; simpl; [done |].
  by destruct (decide (k' = k)).
Qed.

Lemma od_keys_fmap {W} (f : V → W) d :
  od_keys ((λ e, (e.1, f e.2)) <$> d) = od_keys d.
Proof. unfold od_keys. rewrite <- list_fmap_compose. done. Qed.
End odict_facts.

(** ** The stable sort *)

Section sorted_facts.
Context {A : Type} (key : A → Z).

Lemma insert_by_Permutation x l : insert_by key x l ≡ₚ x :: l.
Proof.
  induction l as [|y l IH]; simpl; [done |].
  destruct (key x <=? key y); [done |].
  rewrite IH. apply Permutation_swap.
Qed.

Lemma sorted_by_Permutation l : sorted_by key l ≡ₚ l.
Proof.
  induction l as [|x l IH]; simpl; [done |].
  by rewrite insert_by_Permutation, IH.
Qed.

Lemma insert_by_ascending x l :
  ascending key l → ascending key (insert_by key x l).
Proof.
  unfold ascending. induction l as [|y l IH]; simpl; intros Hs.
  - repeat constructor.
  - apply StronglySorted_cons in Hs as [Hy Hs].
    destruct (key x <=? key y) eqn:Hle.
    + apply Z.leb_le in Hle. apply StronglySorted_cons. split.
      * constructor; [done |]. eapply Forall_impl; [exact Hy |].
        simpl. intros; lia.
      * by apply StronglySorted_cons.
    + apply Z.leb_gt in Hle. apply StronglySorted_cons. split; [| by apply IH].
      rewrite insert_by_Permutation. constructor; [lia | done].
Qed.

Lemma sorted_by_ascending l : ascending key (sorted_by key l).
Proof.
  induction l as [|x l IH]; simpl; [constructor |].
  by apply insert_by_ascending.
Qed.
End sorted_facts.

(** ** Reconciliation *)

Section update_facts.
Context {Coord : Type} `{Countable Coord} (E : Env Coord).
Implicit Types (self : spawns Coord) (s : Spawnpoint Coord)
  (kn : list ((Coord * Coord) * (Z * Z))) (q : list (Spawnpoint Coord)).

Lemma update_step_recorded alts self kn s :
  recorded E s →
  ∃ self',
    update_step E alts (self, kn) s
    = (self', od_set (point_of s) (spawn_id s, spawn_time_of s) kn)
    ∧ despawn_times self' = <[spawn_id s := despawn_time s]> (despawn_times self)
    ∧ unknown self' = unknown self.
Proof.
  intros [Hb Hs]. unfold update_step. rewrite Hb, Hs.
  eexists. split; [reflexivity |].
  destruct (alt s); [destruct alts |]; done.
Qed.

Lemma update_step_skipped alts self kn s :
  ¬ recorded E s →
  ∃ self',
    update_step E alts (self, kn) s = (self', kn)
    ∧ despawn_times self' = despawn_times self.
Proof.
  intros Hn. unfold update_step.
  destruct (out_of_bounds E s) eqn:Hb; [by eexists |].
  destruct (stale E s) eqn:Hs; [| by destruct Hn].
  eexists. split; [reflexivity |].
  destruct (alt s); [destruct alts |]; done.
Qed.

Lemma recorded_dec s : {recorded E s} + {¬ recorded E s}.
Proof.
  unfold recorded.
  destruct (out_of_bounds E s), (stale E s);
    (by left) || (right; intros [? ?]; done).
Qed.

Lemma update_loop_wf alts q self kn :
  od_wf kn → od_wf (foldl (update_step E alts) (self, kn) q).2.
Proof.
  revert self kn. induction q as [|s q IH]; intros self kn Hwf; [done |].
  simpl. destruct (recorded_dec s) as [Hr|Hr].
  - destruct (update_step_recorded alts self kn s Hr) as (self' & -> & _).
    apply IH. by apply od_wf_set.
  - destruct (update_step_skipped alts self kn s Hr) as (self' & -> & _).
    by apply IH.
Qed.

(** rows that write to another point leave the entry of a point alone *)
Lemma update_loop_known_other alts q self kn p :
  (∀ s, s ∈ q → recorded E s → point_of s ≠ p) →
  od_get p (foldl (update_step E alts) (self, kn) q).2 = od_get p kn.
Proof.
  revert self kn. induction q as [|s q IH]; intros self kn Hq; [done |].
  simpl. destruct (recorded_dec s) as [Hr|Hr].
  - destruct (update_step_recorded alts self kn s Hr) as (self' & -> & _).
    rewrite IH by (intros; apply Hq; [by right | done]).
    apply od_get_set_ne. apply Hq; [by left | done].
  - destruct (update_step_skipped alts self kn s Hr) as (self' & -> & _).
    apply IH. intros; apply Hq; [by right | done].
Qed.

Lemma update_loop_despawn_other alts q self kn i :
  (∀ s, s ∈ q → recorded E s → spawn_id s ≠ i) →
  despawn_times (foldl (update_step E alts) (self, kn) q).1 !! i
  = despawn_times self !! i.
Proof.
  revert self kn. induction q as [|s q IH]; intros self kn Hq; [done |].
  simpl. destruct (recorded_dec s) as [Hr|Hr].
  - destruct (update_step_recorded alts self kn s Hr) as (self' & -> & Hd & _).
    rewrite IH by (intros; apply Hq; [by right | done]).
    rewrite Hd. apply lookup_insert_ne. apply Hq; [by left | done].
  - destruct (update_step_skipped alts self kn s Hr) as (self' & -> & Hd).
    rewrite IH by (intros; apply Hq; [by right | done]). by rewrite Hd.
Qed.

(** what [update] leaves in the instance, in terms of its loop *)
Lemma update_known rows self :
  known (update E rows self)
  = (λ e, (e.1, Some e.2))
      <$> sorted_by (λ e, e.2.2)
            (foldl (update_step E (bool_decide (size (altitudes self) = 0%nat)))
               (self, []) (query E rows)).2.
Proof.
  unfold update.
  destruct (foldl _ _ _) as [self' kn]. simpl.
  by destruct (bool_decide _).
Qed.

Lemma update_despawn_times rows self :
  despawn_times (update E rows self)
  = despawn_times
      (foldl (update_step E (bool_decide (size (altitudes self) = 0%nat)))
         (self, []) (query E rows)).1.
Proof.
  unfold update.
  destruct (foldl _ _ _) as [self' kn]. simpl.
  by destruct (bool_decide _).
Qed.

Lemma update_known_wf rows self : od_wf (known (update E rows self)).
Proof.
  rewrite update_known. unfold od_wf. rewrite od_keys_fmap.
  unfold od_keys. rewrite sorted_by_Permutation.
  apply (update_loop_wf _ _ self []). constructor.
Qed.

(** C1, as amended: during [update], every row that survives the filters
    and is newer than the last migration gets its spawn second computed with
    the half-hour shift and wrap when its duration is not 60, and that value
    is stored with the identifier in the [known] entry of the point, while
    [despawn_times] keeps the raw despawn second of the row under the
    identifier (a later row of the same point, or identifier, overwrites). *)
Theorem update_records_spawn_time rows q1 s q2 self :
  query E rows = q1 ++ s :: q2 →
  recorded E s →
  (duration s ≠ 60 → spawn_time_of s = (despawn_time s + 1800) mod 3600)
  ∧ (duration s = 60 → spawn_time_of s = despawn_time s)
  ∧ ((∀ s', s' ∈ q2 → recorded E s' → point_of s' ≠ point_of s) →
     od_get (point_of s) (known (update E rows self))
     = Some (Some (spawn_id s, spawn_time_of s)))
  ∧ ((∀ s', s' ∈ q2 → recorded E s' → spawn_id s' ≠ spawn_id s) →
     despawn_times (update E rows self) !! spawn_id s = Some (despawn_time s)).
Proof.
  intros Hq Hr. split_and!.
  - intros Hd. unfold spawn_time_of.
    destruct (Z.eqb_spec (duration s) 60); [done | reflexivity].
  - intros Hd. unfold spawn_time_of. by rewrite Hd.
  - intros Hlater. rewrite update_known, Hq, foldl_app. simpl.
    set (alts := bool_decide _).
    destruct (foldl (update_step E alts) (self, []) q1) as [self1 kn1] eqn:H1.
    destruct (update_step_recorded alts self1 kn1 s Hr) as (self2 & Hstep & _).
    assert (od_wf kn1) as Hwf1.
    { change kn1 with (self1, kn1).2. rewrite <- H1.
      apply update_loop_wf. constructor. }
    rewrite Hstep, od_get_fmap.
    erewrite <- od_get_Permutation;
      [ | | symmetry; apply sorted_by_Permutation].
    + rewrite update_loop_known_other by done. by rewrite od_get_set_eq.
    + apply update_loop_wf. by apply od_wf_set.
  - intros Hlater. rewrite update_despawn_times, Hq, foldl_app. simpl.
    set (alts := bool_decide _).
    destruct (foldl (update_step E alts) (self, []) q1) as [self1 kn1].
    destruct (update_step_recorded alts self1 kn1 s Hr) as (self2 & -> & Hd & _).
    rewrite update_loop_despawn_other by done.
    rewrite Hd. apply lookup_insert_eq.
Qed.

End update_facts.

(** the rows of the scenario after reconciliation: the entry of each point
    carries the spawn second, [despawn_times] the raw despawn second *)
Example scenario_known :
  known scenario_plain = [((1, 2), Some (1, 100)); ((3, 4), Some (2, 2000))].
Proof. vm_compute. reflexivity. Qed.

Example scenario_despawn_times :
  despawn_times scenario_plain !! 1 = Some 100
  ∧ despawn_times scenario_plain !! 2 = Some 200.
Proof. split; vm_compute; reflexivity. Qed.

(** C1 as stated fails: for the half-hour row of the scenario the value
    under its identifier in [despawn_times] is the raw 200, not the shifted
    2000 that the [known] entry carries. *)
Lemma update_despawn_times_shifted_counterexample :
  scenario_half_hour_row ∈ query scenario_env scenario_rows
  ∧ recorded scenario_env scenario_half_hour_row
  ∧ duration scenario_half_hour_row ≠ 60
  ∧ (despawn_time scenario_half_hour_row + 1800) mod 3600 = 2000
  ∧ od_get (point_of scenario_half_hour_row) (known scenario_plain)
    = Some (Some (2, 2000))
  ∧ despawn_times scenario_plain !! spawn_id scenario_half_hour_row
    ≠ Some ((despawn_time scenario_half_hour_row + 1800) mod 3600).
Proof.
  split_and!.
  - right. left.
  - split; reflexivity.
  - discriminate.
  - reflexivity.
  - vm_compute. reflexivity.
  - vm_compute. discriminate.
Qed.

Lemma update_records_spawn_time_witness :
  od_get (3, 4) (known scenario_plain) = Some (Some (2, 2000))
  ∧ despawn_times scenario_plain !! 2 = Some 200.
Proof.
  destruct (update_records_spawn_time scenario_env scenario_rows
              [ {| spawn_id := 1; lat := 1; lon := 2; alt := None;
                   updated := Some 2000; duration := 60;
                   despawn_time := 100 |} ]
              scenario_half_hour_row [] (Spawns_init scenario_env)
              eq_refl (conj eq_refl eq_refl)) as (_ & _ & Hk & Hd).
  split; [apply Hk | apply Hd]; intros s' Hs'; inversion Hs'.
Defined.

(** ** Despawn instants *)

Section despawn_facts.
Context {Coord : Type} `{Countable Coord}.
Implicit Types (self : spawns Coord).

Lemma get_current_hour_spec now :
  get_current_hour now mod 3600 = 0
  ∧ get_current_hour now ≤ now < get_current_hour now + 3600.
Proof.
  unfold get_current_hour.
  pose proof (Z.mod_pos_bound now 3600 ltac:(lia)) as Hm.
  pose proof (Z.div_mod now 3600 ltac:(lia)) as Hd.
  split; [| lia].
  replace (now - now mod 3600) with (now `div` 3600 * 3600) by lia.
  apply Z.mod_mul. lia.
Qed.

(** C3: [get_despawn_time] adds the stored despawn second to the start of
    the hour that contains [seen], and one more hour when [seen] is after
    that instant; it returns [None] exactly when the identifier is not in
    [despawn_times]. *)
Theorem get_despawn_time_spec spawn_id seen self :
  let hour := get_current_hour seen in
  (hour mod 3600 = 0 ∧ hour ≤ seen < hour + 3600)
  ∧ match despawn_times self !! spawn_id with
    | Some d =>
        ∃ t, get_despawn_time spawn_id seen self = Some t
             ∧ (seen > d + hour → t = d + hour + 3600)
             ∧ (seen ≤ d + hour → t = d + hour)
    | None => get_despawn_time spawn_id seen self = None
    end
  ∧ (get_despawn_time spawn_id seen self = None
     ↔ spawn_id ∉ dom (despawn_times self)).
Proof.
  intros hour. split; [apply get_current_hour_spec |].
  unfold get_despawn_time. fold hour.
  rewrite not_elem_of_dom.
  destruct (despawn_times self !! spawn_id) as [d|]; [| done].
  split; [| done].
  eexists. split; [reflexivity |].
  destruct (Z.gtb_spec seen (d + hour)); split; intros; lia || done.
Qed.

(** C10: when the stored despawn second lies in [0, 3600), the instant
    returned for an observation at [seen] satisfies
    [seen <= t < seen + 3600]. *)
Theorem get_despawn_time_window spawn_id seen self d :
  despawn_times self !! spawn_id = Some d →
  0 ≤ d < 3600 →
  ∃ t, get_despawn_time spawn_id seen self = Some t ∧ seen ≤ t < seen + 3600.
Proof.
  intros Hd Hrange. unfold get_despawn_time. rewrite Hd.
  destruct (get_current_hour_spec seen) as [_ Hh].
  eexists. split; [reflexivity |].
  destruct (Z.gtb_spec seen (d + get_current_hour seen)); lia.
Qed.

End despawn_facts.

Example get_despawn_time_before :
  get_despawn_time 1 7250 scenario_plain = Some 7300.
Proof. vm_compute. reflexivity. Qed.

Example get_despawn_time_after :
  get_despawn_time 1 7350 scenario_plain = Some 10900.
Proof. vm_compute. reflexivity. Qed.

Example get_despawn_time_absent :
  get_despawn_time 5 7350 scenario_plain = None.
Proof. vm_compute. reflexivity. Qed.

Lemma get_despawn_time_window_witness :
  ∃ t, get_despawn_time 1 7350 scenario_plain = Some t
       ∧ 7350 ≤ t < 7350 + 3600.
Proof.
  apply (get_despawn_time_window 1 7350 scenario_plain 100).
  - vm_compute. reflexivity.
  - lia.
Defined.

(** ** Altitudes *)

Section altitude_facts.
Context {Coord : Type} `{Countable Coord} (E : Env Coord).
Implicit Types (self : spawns Coord) (o : alt_oracle Coord)
  (point : Coord * Coord).

(** C6: on a miss of the cache, a fetch that raises one of the three caught
    kinds makes [get_altitude] return the random altitude and leave the
    instance, so the cache, as it was: a later call on the same point fetches
    again; a fetch that succeeds is stored and returned. *)
Theorem get_altitude_miss o point randomize self :
  altitudes self !! round_coords E point (ALT_PRECISION (conf E)) = None →
  let p := round_coords E point (ALT_PRECISION (conf E)) in
  (∀ e, fetch o p = Raised e → is_exception e = true →
     get_altitude E o point randomize self = (Returned (random_altitude o), self)
     ∧ ∀ o' a, fetch o' p = Returned a →
         (get_altitude E o' point randomize
            (get_altitude E o point randomize self).2).1 = Returned a)
  ∧ (∀ a, fetch o p = Returned a →
       get_altitude E o point randomize self
       = (Returned a, set_altitudes (<[p := a]> (altitudes self)) self)
       ∧ altitudes (get_altitude E o point randomize self).2 !! p = Some a).
Proof.
  intros Hmiss p. subst p. split.
  - intros e He Hexc.
    assert (get_altitude E o point randomize self
            = (Returned (random_altitude o), self)) as Hget.
    { unfold get_altitude. rewrite Hmiss, He. destruct e; done. }
    split; [done |]. intros o' a Ho'. rewrite Hget. simpl.
    unfold get_altitude. by rewrite Hmiss, Ho'.
  - intros a Ha. unfold get_altitude. rewrite Hmiss, Ha.
    split; [done |]. simpl. apply lookup_insert_eq.
Qed.

End altitude_facts.

Lemma get_altitude_miss_witness :
  get_altitude scenario_env scenario_oracle (8, 9) 0 scenario_plain
  = (Returned 42%Q, scenario_plain).
Proof.
  pose proof (get_altitude_miss scenario_env scenario_oracle (8, 9) 0%Q
                scenario_plain eq_refl) as Hmiss.
  cbv zeta in Hmiss. destruct Hmiss as [Hfail _].
  exact (proj1 (Hfail KeyError eq_refl eq_refl)).
Defined.

(** ** Snapshots *)

Section snapshot_facts.
Context {Coord : Type} `{Countable Coord} (E : Env Coord).
Implicit Types (self : spawns Coord) (state : pickled Coord)
  (file : loaded Coord).

Lemma compatible_dec state self : Decision (compatible E state self).
Proof. unfold compatible. apply _. Qed.

(** the comparison [unpickle] makes, on a dictionary with the four keys *)
Lemma unpickle_compatible state self :
  compatible E state self →
  BaseSpawns_unpickle E (PickleDict state) self
  = match p_alt_precision state with
    | None => (false, dict_update state self)
    | Some ap =>
        if bool_decide (ap ≠ ALT_PRECISION (conf E))
        then (true, set_altitudes (get_all_altitudes E None)
                      (dict_update state self))
        else (true, dict_update state self)
    end.
Proof.
  intros (Hcv & Hdh & Hbh & Hlm). unfold BaseSpawns_unpickle.
  rewrite Hcv, Hdh, Hbh, Hlm. by rewrite !bool_decide_eq_true_2.
Qed.

Lemma unpickle_incompatible state self :
  ¬ compatible E state self →
  BaseSpawns_unpickle E (PickleDict state) self = (false, self).
Proof.
  intros Hn. unfold BaseSpawns_unpickle.
  destruct (p_class_version state) as [cv|] eqn:Hcv; [| done].
  destruct (p_db_hash state) as [dh|] eqn:Hdh; [| done].
  destruct (p_bounds_hash state) as [bh|] eqn:Hbh; [| done].
  destruct (p_last_migration state) as [lm|] eqn:Hlm; [| done].
  destruct (_ && _) eqn:Hall; [| done].
  destruct Hn. unfold compatible. rewrite Hcv, Hdh, Hbh, Hlm.
  repeat (apply andb_prop in Hall as [Hall ?]).
  repeat match goal with
         | Hb : bool_decide _ = true |- _ => apply bool_decide_eq_true_1 in Hb
         end.
  by subst.
Qed.

Lemma Spawns_unpickle_result file self :
  (Spawns_unpickle E file self).1 = (BaseSpawns_unpickle E file self).1.
Proof. unfold Spawns_unpickle. by destruct (BaseSpawns_unpickle E file self). Qed.

(** C4, as amended: a snapshot is accepted exactly when it is a dictionary
    whose structure version, store fingerprint, boundary fingerprint and
    last-migration marker agree with the running configuration and which has
    an altitude-precision field, whatever its value; then the saved
    attributes replace those in memory.  A missing file, an object that is
    no dictionary, or a dictionary in which one of the four fields is absent
    or differs makes [unpickle] return false and leaves the instance as it
    was.  The two classes agree on the result. *)
Theorem unpickle_accepts_iff file self :
  ((BaseSpawns_unpickle E file self).1 = true
   ↔ ∃ state, file = PickleDict state ∧ compatible E state self
              ∧ is_Some (p_alt_precision state))
  ∧ (∀ state, file = PickleDict state →
       (BaseSpawns_unpickle E file self).1 = true →
       let self' := (BaseSpawns_unpickle E file self).2 in
       known self' = default (known self) (p_known state)
       ∧ unknown self' = default (unknown self) (p_unknown state)
       ∧ despawn_times self'
         = default (despawn_times self) (p_despawn_times state))
  ∧ (file = NoPickle ∨ file = NotADict
     ∨ (∃ state, file = PickleDict state ∧ ¬ compatible E state self) →
     BaseSpawns_unpickle E file self = (false, self))
  ∧ (Spawns_unpickle E file self).1 = (BaseSpawns_unpickle E file self).1.
Proof.
  split_and!.
  - destruct file as [| |state].
    1,2: simpl; split; [done | intros (? & ? & _); done].
    destruct (compatible_dec state self) as [Hc|Hc].
    + rewrite unpickle_compatible by done.
      destruct (p_alt_precision state) as [ap|] eqn:Hap; simpl.
      * split; [intros _; exists state; by rewrite Hap |].
        intros _. by destruct (bool_decide _).
      * split; [done |]. intros (st & [= <-] & _ & [? ?]). congruence.
    + rewrite unpickle_incompatible by done. simpl.
      split; [done |]. intros (st & [= <-] & ? & _). done.
  - intros state -> Hacc.
    destruct (compatible_dec state self) as [Hc|Hc].
    + rewrite unpickle_compatible in * by done.
      destruct (p_alt_precision state) as [ap|]; [| done].
      by destruct (bool_decide _).
    + by rewrite unpickle_incompatible in Hacc by done.
  - intros [-> | [-> | (state & -> & Hc)]]; [done | done |].
    by apply unpickle_incompatible.
  - apply Spawns_unpickle_result.
Qed.

(** C9: a snapshot that agrees with the configuration on the four compared
    fields and carries another altitude precision is accepted: [unpickle]
    returns true, the restored [known], [unknown] and [despawn_times] stay,
    and [altitudes] is replaced by what [get_all_altitudes()] returns.  The
    same holds for the [unpickle] of [Spawns]. *)
Theorem unpickle_precision_changed state ap self :
  compatible E state self →
  p_alt_precision state = Some ap →
  ap ≠ ALT_PRECISION (conf E) →
  ∃ self',
    BaseSpawns_unpickle E (PickleDict state) self = (true, self')
    ∧ Spawns_unpickle E (PickleDict state) self
      = (true, set_cell_points None self')
    ∧ known self' = default (known self) (p_known state)
    ∧ unknown self' = default (unknown self) (p_unknown state)
    ∧ despawn_times self' = default (despawn_times self) (p_despawn_times state)
    ∧ altitudes self' = get_all_altitudes E None.
Proof.
  intros Hc Hap Hne. unfold Spawns_unpickle.
  rewrite unpickle_compatible, Hap, bool_decide_eq_true_2 by done.
  eexists. split; [reflexivity |]. done.
Qed.

(** C7: [pickle] followed by [unpickle] under the same configuration, on an
    instance of the same class version and database fingerprint, returns
    true and gives back the [known], [unknown], [despawn_times] and
    [altitudes] that were saved. *)
Theorem pickle_unpickle_roundtrip self self0 :
  class_version self0 = class_version self →
  db_hash self0 = db_hash self →
  ∃ self',
    BaseSpawns_unpickle E (pickle E self) self0 = (true, self')
    ∧ Spawns_unpickle E (pickle E self) self0
      = (true, set_cell_points None self')
    ∧ known self' = known self
    ∧ unknown self' = unknown self
    ∧ despawn_times self' = despawn_times self
    ∧ altitudes self' = altitudes self.
Proof.
  intros Hcv Hdh. unfold Spawns_unpickle, pickle, dump_pickle.
  rewrite unpickle_compatible.
  - simpl. rewrite bool_decide_eq_false_2 by (intros Hne; by apply Hne).
    eexists. split; [reflexivity |]. done.
  - unfold compatible. simpl. by rewrite Hcv, Hdh.
Qed.

Lemma unpickle_has_cell_points file self :
  is_Some (cell_points self) →
  is_Some (cell_points (BaseSpawns_unpickle E file self).2).
Proof.
  intros Hcp. destruct file as [| |state]; [done | done |].
  destruct (compatible_dec state self) as [Hc|Hc].
  - rewrite unpickle_compatible by done.
    assert (is_Some (cell_points (dict_update state self))) as Hup
      by (simpl; by destruct (p_cell_points state)).
    destruct (p_alt_precision state); [| done].
    by destruct (bool_decide _).
  - by rewrite unpickle_incompatible.
Qed.

(** a snapshot taken under another boundary is discarded *)
Lemma unpickle_other_bounds (E0 : Env Coord) self self0 :
  bounds_hash (bounds E0) ≠ bounds_hash (bounds E) →
  BaseSpawns_unpickle E (pickle E0 self) self0 = (false, self0).
Proof.
  intros Hne. apply unpickle_incompatible.
  intros (_ & _ & Hbh & _). simpl in Hbh. congruence.
Qed.

End snapshot_facts.

(** C4 as stated fails on the altitude precision: this snapshot carries
    precision 3 while the configuration has 2, and is accepted. *)
Lemma unpickle_precision_counterexample :
  p_alt_precision scenario_old_state = Some 3
  ∧ ALT_PRECISION (conf scenario_env) = 2
  ∧ (BaseSpawns_unpickle scenario_env (PickleDict scenario_old_state)
       (MoreSpawns_init scenario_env)).1 = true.
Proof. split_and!; vm_compute; reflexivity. Qed.

Lemma unpickle_accepts_iff_witness :
  BaseSpawns_unpickle scenario_env NoPickle (MoreSpawns_init scenario_env)
  = (false, MoreSpawns_init scenario_env).
Proof.
  apply (unpickle_accepts_iff scenario_env NoPickle
           (MoreSpawns_init scenario_env)).
  by left.
Defined.

Lemma unpickle_precision_changed_witness :
  ∃ self',
    BaseSpawns_unpickle scenario_env (PickleDict scenario_old_state)
      (MoreSpawns_init scenario_env) = (true, self')
    ∧ known self' = known scenario_more
    ∧ altitudes self' = get_all_altitudes scenario_env None.
Proof.
  destruct (unpickle_precision_changed scenario_env scenario_old_state 3
              (MoreSpawns_init scenario_env))
    as (self' & Hun & _ & Hk & _ & _ & Ha).
  - repeat split.
  - reflexivity.
  - discriminate.
  - exists self'. split_and!; [exact Hun | exact Hk | exact Ha].
Defined.

Lemma pickle_unpickle_roundtrip_witness :
  ∃ self',
    BaseSpawns_unpickle scenario_env (pickle scenario_env scenario_more)
      (MoreSpawns_init scenario_env) = (true, self')
    ∧ known self' = known scenario_more
    ∧ unknown self' = unknown scenario_more
    ∧ despawn_times self' = despawn_times scenario_more
    ∧ altitudes self' = altitudes scenario_more.
Proof.
  destruct (pickle_unpickle_roundtrip scenario_env scenario_more
              (MoreSpawns_init scenario_env))
    as (self' & Hun & _ & Hrest).
  - reflexivity.
  - reflexivity.
  - exists self'. split; [exact Hun | exact Hrest].
Defined.

(** ** Buckets *)

Section registry_facts.
Context {Coord : Type} `{Countable Coord}.
Implicit Types (self : spawns Coord) (c : call Coord)
  (calls : list (call Coord)) (p : Coord * Coord).

Lemma last_call_on_snoc p calls c :
  last_call_on p (calls ++ [c])
  = if decide (call_point c = p) then Some c else last_call_on p calls.
Proof.
  unfold last_call_on. rewrite filter_app, filter_cons, filter_nil.
  destruct (decide (call_point c = p)).
  - apply last_snoc.
  - by rewrite app_nil_r.
Qed.

Lemma last_call_on_None p calls :
  last_call_on p calls = None ↔ p ∉ call_point <$> calls.
Proof.
  unfold last_call_on. rewrite last_None. split.
  - intros Hnil (c & -> & Hc)%list_elem_of_fmap.
    assert (c ∈ filter (λ c', call_point c' = call_point c) calls) as Hin
      by (by apply list_elem_of_filter).
    rewrite Hnil in Hin. inversion Hin.
  - intros Hnot. destruct (filter _ calls) as [|c l] eqn:Hf; [done |].
    assert (c ∈ filter (λ c', call_point c' = p) calls)
      as [Hp Hc]%list_elem_of_filter by (rewrite Hf; left).
    destruct Hnot. apply list_elem_of_fmap. by exists c.
Qed.

(** membership tests on sets, settled by cases *)
Ltac decide_sets :=
  repeat case_bool_decide; try done; set_solver.

Lemma in_known_od_set p p' v (kn : list (Coord * Coord * option (Z * Z))) :
  od_mem p (od_set p' v kn) = bool_decide (p' = p) || od_mem p kn.
Proof.
  unfold od_mem. destruct (decide (p' = p)) as [->|Hne].
  - rewrite od_get_set_eq, bool_decide_eq_true_2 by done.
    by rewrite bool_decide_eq_true_2 by (by eexists).
  - rewrite od_get_set_ne by done. by rewrite (bool_decide_eq_false_2 (p' = p)).
Qed.

(** what one call of the extended variant does to the three tests *)
Lemma MoreSpawns_call_in_known p self c :
  in_known p (MoreSpawns_call self c)
  = (is_add_known c && bool_decide (call_point c = p)) || in_known p self.
Proof.
  destruct c as [i t q|q]; unfold in_known; simpl; [| done].
  apply in_known_od_set.
Qed.

Lemma MoreSpawns_call_in_unknown p self c :
  in_unknown p (MoreSpawns_call self c)
  = if decide (call_point c = p) then negb (is_add_known c)
    else in_unknown p self.
Proof.
  destruct c as [i t q|q]; unfold in_unknown; simpl;
    destruct (decide (q = p)) as [Heq|Hne]; try subst q; decide_sets.
Qed.

Lemma MoreSpawns_call_in_cell_points p self c :
  in_cell_points p (MoreSpawns_call self c)
  = if decide (call_point c = p) then false else in_cell_points p self.
Proof.
  destruct c as [i t q|q]; unfold in_cell_points; simpl;
    destruct (cell_points self) as [cp|]; simpl;
    destruct (decide (q = p)) as [Heq|Hne]; try subst q; decide_sets.
Qed.

Lemma Spawns_call_known self c : known (Spawns_call self c) = known self.
Proof. by destruct c. Qed.

Lemma Spawns_call_cell_points self c :
  cell_points (Spawns_call self c) = cell_points self.
Proof. by destruct c. Qed.

Lemma Spawns_call_in_unknown p self c :
  in_unknown p (Spawns_call self c)
  = if decide (call_point c = p) then negb (is_add_known c)
    else in_unknown p self.
Proof.
  destruct c as [i t q|q]; unfold in_unknown; simpl;
    destruct (decide (q = p)) as [Heq|Hne]; try subst q; decide_sets.
Qed.

(** ... and what a sequence of calls does *)
Lemma MoreSpawns_run_in_known p calls self :
  in_known p (MoreSpawns_run calls self)
  = existsb (λ c, is_add_known c && bool_decide (call_point c = p)) calls
    || in_known p self.
Proof.
  unfold MoreSpawns_run. induction calls as [|c calls IH] using rev_ind; [done |].
  rewrite foldl_app, existsb_app. simpl.
  rewrite MoreSpawns_call_in_known, IH.
  destruct (existsb _ calls), (is_add_known c && _), (in_known p self); done.
Qed.

Lemma MoreSpawns_run_in_unknown p calls self :
  in_unknown p (MoreSpawns_run calls self)
  = match last_call_on p calls with
    | Some c => negb (is_add_known c)
    | None => in_unknown p self
    end.
Proof.
  unfold MoreSpawns_run. induction calls as [|c calls IH] using rev_ind; [done |].
  rewrite foldl_app, last_call_on_snoc. simpl.
  rewrite MoreSpawns_call_in_unknown, IH.
  by destruct (decide (call_point c = p)).
Qed.

Lemma MoreSpawns_run_in_cell_points p calls self :
  in_cell_points p (MoreSpawns_run calls self)
  = match last_call_on p calls with
    | Some c => false
    | None => in_cell_points p self
    end.
Proof.
  unfold MoreSpawns_run. induction calls as [|c calls IH] using rev_ind; [done |].
  rewrite foldl_app, last_call_on_snoc. simpl.
  rewrite MoreSpawns_call_in_cell_points, IH.
  destruct (decide (call_point c = p)); [done |].
  by destruct (last_call_on p calls).
Qed.

Lemma Spawns_run_known calls self : known (Spawns_run calls self) = known self.
Proof.
  unfold Spawns_run. induction calls as [|c calls IH] using rev_ind; [done |].
  by rewrite foldl_app; simpl; rewrite Spawns_call_known.
Qed.

Lemma Spawns_run_cell_points calls self :
  cell_points (Spawns_run calls self) = cell_points self.
Proof.
  unfold Spawns_run. induction calls as [|c calls IH] using rev_ind; [done |].
  by rewrite foldl_app; simpl; rewrite Spawns_call_cell_points.
Qed.

Lemma Spawns_run_in_unknown p calls self :
  in_unknown p (Spawns_run calls self)
  = match last_call_on p calls with
    | Some c => negb (is_add_known c)
    | None => in_unknown p self
    end.
Proof.
  unfold Spawns_run. induction calls as [|c calls IH] using rev_ind; [done |].
  rewrite foldl_app, last_call_on_snoc. simpl.
  rewrite Spawns_call_in_unknown, IH.
  by destruct (decide (call_point c = p)).
Qed.

(** the calls keep the keys of the known mapping unique, and an instance of
    the extended variant keeps its attribute [cell_points] *)
Lemma Spawns_run_wf calls self :
  od_wf (known self) → od_wf (known (Spawns_run calls self)).
Proof. by rewrite Spawns_run_known. Qed.

Lemma MoreSpawns_call_wf self c :
  od_wf (known self) → od_wf (known (MoreSpawns_call self c)).
Proof. destruct c; simpl; [apply od_wf_set | done]. Qed.

Lemma MoreSpawns_run_wf calls self :
  od_wf (known self) → od_wf (known (MoreSpawns_run calls self)).
Proof.
  intros Hwf. unfold MoreSpawns_run.
  induction calls as [|c calls IH] using rev_ind; [done |].
  rewrite foldl_app. simpl. by apply MoreSpawns_call_wf.
Qed.

Lemma MoreSpawns_call_has_cell_points self c :
  is_Some (cell_points self) → is_Some (cell_points (MoreSpawns_call self c)).
Proof. intros [cp Hcp]. destruct c; simpl; rewrite Hcp; by eexists. Qed.

Lemma MoreSpawns_run_has_cell_points calls self :
  is_Some (cell_points self) → is_Some (cell_points (MoreSpawns_run calls self)).
Proof.
  intros Hcp. unfold MoreSpawns_run.
  induction calls as [|c calls IH] using rev_ind; [done |].
  rewrite foldl_app. simpl. by apply MoreSpawns_call_has_cell_points.
Qed.

(** C2, as amended: after any sequence of [add_known] and [add_unknown]
    calls, a point that was passed to one of them is, in the extended
    variant, never in [cell_points], in [unknown] exactly when the last call
    that passed it was [add_unknown], and in [known] exactly when it was
    there before or was passed to some [add_known]; so it is in one or two
    buckets, and in exactly one when the last call that passed it was
    [add_known], or when it was not in [known] before and never passed to
    [add_known].  In the plain variant the calls leave [known] and
    [cell_points] alone and the point is in [unknown] exactly when the last
    call that passed it was [add_unknown]. *)
Theorem buckets_after_calls calls self p :
  p ∈ call_point <$> calls →
  ∃ c, last_call_on p calls = Some c
  ∧ (let more := MoreSpawns_run calls self in
     in_cell_points p more = false
     ∧ in_unknown p more = negb (is_add_known c)
     ∧ in_known p more
       = existsb (λ c', is_add_known c' && bool_decide (call_point c' = p)) calls
         || in_known p self
     ∧ (1 ≤ bucket_count p more ≤ 2)%nat
     ∧ (is_add_known c = true → bucket_count p more = 1%nat)
     ∧ (in_known p more = false → bucket_count p more = 1%nat))
  ∧ (let plain := Spawns_run calls self in
     known plain = known self
     ∧ cell_points plain = cell_points self
     ∧ in_unknown p plain = negb (is_add_known c)).
Proof.
  intros Hin.
  destruct (last_call_on p calls) as [c|] eqn:Hlast;
    [| by apply last_call_on_None in Hlast].
  exists c. split; [done |].
  assert (call_point c = p ∧ c ∈ calls) as [Hp Hc].
  { unfold last_call_on in Hlast. apply last_Some in Hlast as [l Hl].
    assert (c ∈ filter (λ c', call_point c' = p) calls) as Hf
      by (rewrite Hl; set_solver).
    by apply list_elem_of_filter in Hf. }
  split.
  - cbv zeta. unfold bucket_count.
    rewrite MoreSpawns_run_in_cell_points, MoreSpawns_run_in_unknown,
      MoreSpawns_run_in_known, Hlast.
    assert (is_add_known c = true →
            existsb (λ c', is_add_known c' && bool_decide (call_point c' = p))
              calls = true) as Hex.
    { intros Hk. apply existsb_exists. exists c.
      split; [by apply list_elem_of_In |].
      by rewrite Hk, bool_decide_eq_true_2. }
    destruct (is_add_known c); [rewrite Hex by done |];
      destruct (existsb _ calls), (in_known p self); simpl;
      split_and!; done || lia.
  - cbv zeta.
    by rewrite Spawns_run_known, Spawns_run_cell_points,
      Spawns_run_in_unknown, Hlast.
Qed.

End registry_facts.

(** C2 as stated fails in both variants: in the plain one a point given
    only to [add_known] is in no bucket; in the extended one a point given
    to [add_known] and then to [add_unknown] is in two. *)
Lemma exactly_one_bucket_counterexample :
  bucket_count (5, 6)
    (Spawns_run [AddKnown 9 300 (5, 6)] (Spawns_init scenario_env)) = 0%nat
  ∧ bucket_count (5, 6)
      (MoreSpawns_run [AddKnown 9 300 (5, 6); AddUnknown (5, 6)]
         (MoreSpawns_init scenario_env)) = 2%nat.
Proof. split; vm_compute; reflexivity. Qed.

Lemma buckets_after_calls_witness :
  bucket_count (5, 6)
    (MoreSpawns_run [AddUnknown (5, 6); AddKnown 9 300 (5, 6)]
       (MoreSpawns_init scenario_env)) = 1%nat.
Proof.
  destruct (buckets_after_calls [AddUnknown (5, 6); AddKnown 9 300 (5, 6)]
              (MoreSpawns_init scenario_env) (5, 6))
    as (c & Hc & (_ & _ & _ & _ & Hone & _) & _).
  - vm_compute. right. left.
  - apply Hone. vm_compute in Hc. by injection Hc as <-.
Defined.

(** ** Order of the known mapping *)

Section order_facts.
Context {Coord : Type} `{Countable Coord}.
Implicit Types (self : spawns Coord) (c : call Coord)
  (calls : list (call Coord)) (p : Coord * Coord)
  (kn : list (Coord * Coord * option (Z * Z))).

Lemma ascending_sublist (l1 l2 : list Z) :
  sublist l1 l2 → ascending id l2 → ascending id l1.
Proof.
  unfold ascending. induction 1 as [|x l1 l2 Hsub IH|x l1 l2 Hsub IH];
    intros Hs; [done | |].
  - apply StronglySorted_cons in Hs as [Hx Hs].
    apply StronglySorted_cons. split; [| by apply IH].
    rewrite Forall_forall in Hx. apply Forall_forall.
    intros y Hy. apply Hx. by apply (elem_of_sublist l1).
  - apply StronglySorted_cons in Hs as [_ Hs]. by apply IH.
Qed.

Lemma known_seconds_sorted kn secs :
  entry_seconds <$> kn = Some <$> secs → known_seconds kn = secs.
Proof.
  unfold known_seconds. revert secs.
  induction kn as [|e kn IH]; intros [|s secs]; simpl; try done.
  intros [= He Hkn]. rewrite He. simpl. f_equal. by apply IH.
Qed.

(** a placeholder written by [add_known] removes the seconds of at most
    one entry and moves no other *)
Lemma known_seconds_placeholder p kn :
  sublist (known_seconds (od_set p None kn)) (known_seconds kn).
Proof.
  unfold known_seconds. induction kn as [|[p' v] kn IH]; simpl; [done |].
  destruct (decide (p' = p)); simpl.
  - destruct v as [[i s]|]; simpl; [by apply sublist_cons | done].
  - destruct v as [[i s]|]; simpl; [by apply sublist_skip | done].
Qed.

Lemma MoreSpawns_call_known_seconds self c :
  sublist (known_seconds (known (MoreSpawns_call self c)))
    (known_seconds (known self)).
Proof.
  destruct c; simpl; [apply known_seconds_placeholder | done].
Qed.

Lemma MoreSpawns_run_known_seconds calls self :
  sublist (known_seconds (known (MoreSpawns_run calls self)))
    (known_seconds (known self)).
Proof.
  unfold MoreSpawns_run. induction calls as [|c calls IH] using rev_ind; [done |].
  rewrite foldl_app. simpl. etrans; [apply MoreSpawns_call_known_seconds | done].
Qed.

Lemma known_sorted_last_is_max kn :
  known_sorted kn → kn ≠ [] → last_is_max kn.
Proof.
  intros (secs & Hsecs & Hasc) Hne. unfold last_is_max.
  rewrite (known_seconds_sorted _ _ Hsecs).
  destruct (last kn) as [[p v]|] eqn:Hlast; [| by apply last_None in Hlast].
  assert (last (entry_seconds <$> kn) = Some (entry_seconds (p, v))) as Hl
    by (by rewrite fmap_last, Hlast).
  rewrite Hsecs, fmap_last in Hl.
  destruct (last secs) as [s|] eqn:Hs; [| done].
  destruct v as [[i s']|]; [| done]. injection Hl as <-.
  exists p, i, s. split; [done |].
  apply last_Some in Hs as [secs' ->].
  apply StronglySorted_app in Hasc as (Hle & _ & _).
  apply Forall_app. split; [| by repeat constructor].
  apply Forall_forall. intros x Hx. apply (Hle x s Hx). left.
Qed.

(** [after_last] reads the last entry of the mapping *)
Lemma after_last_last now self :
  od_wf (known self) →
  after_last now self
  = match last (known self) with
    | Some (_, Some (_, seconds)) => now mod 3600 >? seconds
    | _ => false
    end.
Proof.
  intros Hwf. unfold after_last, od_keys. rewrite fmap_last.
  destruct (last (known self)) as [[p v]|] eqn:Hlast; [| done]. simpl.
  assert (od_get p (known self) = Some v) as ->.
  { apply od_get_Some; [done |]. apply last_Some in Hlast as [l ->].
    set_solver. }
  by destruct v as [[i s]|].
Qed.

(** C5, as amended: [after_last] returns true exactly when the known
    mapping is not empty, its last entry carries seconds (it is no
    placeholder of [add_known]) and the current second of the hour exceeds
    them; when the mapping is sorted, as [update] leaves it, those are the
    greatest seconds stored, so that the answer is true exactly when the
    mapping is not empty and the current second exceeds every stored one. *)
Theorem after_last_spec now self :
  od_wf (known self) →
  (after_last now self = true
   ↔ ∃ p i s, last (known self) = Some (p, Some (i, s)) ∧ s < now mod 3600)
  ∧ (known_sorted (known self) →
     (after_last now self = true
      ↔ known self ≠ []
        ∧ Forall (λ s, s < now mod 3600) (known_seconds (known self)))).
Proof.
  intros Hwf. rewrite after_last_last by done. split.
  - destruct (last (known self)) as [[p [[i s]|]]|].
    + rewrite Z.gtb_gt. split; [intros ?; exists p, i, s; split; [done | lia] |].
      intros (? & ? & ? & [= <- <- <-] & ?). lia.
    + split; [done | intros (? & ? & ? & [=] & _)].
    + split; [done | intros (? & ? & ? & [=] & _)].
  - intros Hsorted. destruct (known self) as [|e kn] eqn:Hkn.
    { simpl. split; [done | intros [? _]; done]. }
    rewrite <- Hkn in *.
    destruct (known_sorted_last_is_max _ Hsorted)
      as (p & i & s & Hlast & Hmax); [by rewrite Hkn |].
    rewrite Hlast, Z.gtb_gt. split.
    + intros Hgt. split; [by rewrite Hkn |].
      eapply Forall_impl; [exact Hmax |]. simpl. intros; lia.
    + intros [_ Hall].
      destruct Hsorted as (secs & Hsecs & _).
      rewrite (known_seconds_sorted _ _ Hsecs) in Hall.
      assert (last (entry_seconds <$> known self) = Some (Some s)) as Hl
        by (by rewrite fmap_last, Hlast).
      rewrite Hsecs, fmap_last in Hl.
      destruct (last secs) as [s'|] eqn:Hs; [| done]. injection Hl as ->.
      apply last_Some in Hs as [secs' ->].
      rewrite Forall_app, Forall_singleton in Hall. lia.
Qed.

End order_facts.

Section update_order.
Context {Coord : Type} `{Countable Coord} (E : Env Coord).
Implicit Types (self : spawns Coord) (calls : list (call Coord)).

Lemma update_known_sorted rows self : known_sorted (known (update E rows self)).
Proof.
  rewrite update_known.
  set (kn := (foldl _ _ _).2).
  exists ((λ e, e.2.2) <$> sorted_by (λ e, e.2.2) kn). split.
  - by rewrite <- !list_fmap_compose.
  - apply (StronglySorted_fmap _ (λ a b, a.2.2 ≤ b.2.2)); [done |].
    apply (sorted_by_ascending (λ e : Coord * Coord * (Z * Z), e.2.2)).
Qed.

(** C8, as amended: [update] leaves the known mapping sorted ascending by
    the seconds of its entries, the last entry carrying the greatest.  The
    calls of the plain variant and [add_unknown] of the extended one do not
    touch the mapping.  [add_known] of the extended variant writes a
    placeholder without seconds, in place for a point of the mapping and at
    the end for a new one; after any sequence of calls the entries that
    still carry seconds are in ascending order. *)
Theorem known_order rows self0 calls :
  let self := update E rows self0 in
  known_sorted (known self)
  ∧ (known self ≠ [] → last_is_max (known self))
  ∧ known (Spawns_run calls self) = known self
  ∧ (∀ self' p, known (MoreSpawns_add_unknown p self') = known self')
  ∧ (∀ self' i t p,
       known (MoreSpawns_add_known i t p self') = od_set p None (known self'))
  ∧ ascending id (known_seconds (known (MoreSpawns_run calls self))).
Proof.
  intros self. pose proof (update_known_sorted rows self0) as Hsorted.
  fold self in Hsorted. split_and!; try done.
  - by apply known_sorted_last_is_max.
  - apply Spawns_run_known.
  - eapply ascending_sublist; [apply MoreSpawns_run_known_seconds |].
    destruct Hsorted as (secs & Hsecs & Hasc).
    by rewrite (known_seconds_sorted _ _ Hsecs).
Qed.

End update_order.

Example scenario_known_added :
  known scenario_more_added
  = [((1, 2), Some (1, 100)); ((3, 4), Some (2, 2000)); ((5, 6), None)].
Proof. vm_compute. reflexivity. Qed.

(** C8 as stated fails for [add_known] of the extended variant: after the
    reconciliation of the scenario the mapping is sorted, and after one
    [add_known] of a new point its last entry is a placeholder that carries
    no seconds at all. *)
Lemma known_sorted_counterexample :
  known_sorted (known scenario_more)
  ∧ last (known scenario_more_added) = Some ((5, 6), None)
  ∧ ¬ known_sorted (known scenario_more_added)
  ∧ ¬ last_is_max (known scenario_more_added).
Proof.
  split_and!.
  - apply update_known_sorted.
  - vm_compute. reflexivity.
  - intros (secs & Hsecs & _). rewrite scenario_known_added in Hsecs.
    destruct secs as [|s1 [|s2 [|s3 secs]]]; discriminate.
  - intros (p & i & s & Hlast & _). rewrite scenario_known_added in Hlast.
    discriminate.
Qed.

Example after_last_2500 : after_last 2500 scenario_plain = true.
Proof. vm_compute. reflexivity. Qed.

Example after_last_50 : after_last 50 scenario_plain = false.
Proof. vm_compute. reflexivity. Qed.

(** C5 as stated fails once the extended variant has confirmed a point:
    the greatest stored second is 2000, the current second 2500 exceeds it,
    and [after_last] returns false because the last entry is a placeholder. *)
Lemma after_last_counterexample :
  known_seconds (known scenario_more_added) = [100; 2000]
  ∧ 2500 mod 3600 = 2500
  ∧ after_last 2500 scenario_more_added = false.
Proof. split_and!; vm_compute; reflexivity. Qed.

Lemma after_last_spec_witness :
  after_last 2500 scenario_plain = true
  ∧ after_last 50 scenario_plain = false.
Proof.
  assert (od_wf (known scenario_plain)) as Hwf.
  { apply (bool_decide_unpack _). vm_compute. exact I. }
  split.
  - apply (proj1 (after_last_spec 2500 scenario_plain Hwf)).
    exists (3, 4), 2, 2000. split; vm_compute; reflexivity.
  - destruct (after_last 50 scenario_plain) eqn:Hal; [| reflexivity].
    apply (proj1 (after_last_spec 50 scenario_plain Hwf)) in Hal
      as (p & i & s & Hlast & Hlt).
    rewrite scenario_known in Hlast. injection Hlast as <- <- <-.
    vm_compute in Hlt. discriminate.
Defined.

(** * Further properties of the module *)

(** ** What a reconciliation writes *)

Section update_more.
Context {Coord : Type} `{Countable Coord} (E : Env Coord).
Implicit Types (self : spawns Coord) (s : Spawnpoint Coord)
  (kn : list ((Coord * Coord) * (Z * Z))) (q rows : list (Spawnpoint Coord))
  (p : Coord * Coord).

Lemma update_loop_split alts q self kn :
  foldl (update_step E alts) (self, kn) q
  = (set_altitudes (seen_altitudes E alts (altitudes self) q)
       (set_unknown (seen_unknown E (unknown self) q)
          (set_despawn_times
             (seen_despawn_times E (despawn_times self) q) self)),
     seen_known E kn q).
Proof.
  revert self kn. induction q as [|s q IH]; intros self kn.
  - by destruct self.
  - cbn [foldl].
    destruct (update_step E alts (self, kn) s) as [self1 kn1] eqn:Hstep.
    rewrite IH.
    unfold seen_altitudes, seen_unknown, seen_despawn_times, seen_known.
    cbn [foldl]. unfold update_step in Hstep.
    destruct (out_of_bounds E s); [by injection Hstep as <- <- |].
    destruct (alt s) as [v|]; [destruct alts |];
      destruct (stale E s); injection Hstep as <- <-;
      destruct self; reflexivity.
Qed.

Lemma update_unfold rows self :
  update E rows self
  = let alts := bool_decide (size (altitudes self) = 0%nat) in
    let q := query E rows in
    let a := seen_altitudes E alts (altitudes self) q in
    {| known := (λ e, (e.1, Some e.2))
                  <$> sorted_by (λ e, e.2.2) (seen_known E [] q);
       despawn_times := seen_despawn_times E (despawn_times self) q;
       unknown := seen_unknown E (unknown self) q;
       altitudes := if bool_decide (size a = 0%nat)
                    then get_all_altitudes E (Some (BOUNDARIES (conf E)))
                    else a;
       class_version := class_version self;
       db_hash := db_hash self;
       cell_points := cell_points self;
       cells_count := cells_count self |}.
Proof.
  unfold update. rewrite update_loop_split. cbn.
  by destruct (bool_decide (size (seen_altitudes _ _ _ _) = 0%nat)).
Qed.

Lemma seen_unknown_elem p u q :
  p ∈ seen_unknown E u q
  ↔ p ∈ u ∨ ∃ s, s ∈ q ∧ out_of_bounds E s = false ∧ stale E s = true
                 ∧ point_of s = p.
Proof.
  unfold seen_unknown. revert u. induction q as [|s q IH]; intros u.
  - simpl. split; [by left | intros [? | (s & Hs & _)]; [done | inversion Hs]].
  - cbn [foldl]. rewrite IH. split.
    + intros [Hu | (s' & Hs' & ?)]; [| right; exists s'; split; [by right | done]].
      destruct (out_of_bounds E s) eqn:Hb; [by left |].
      destruct (stale E s) eqn:Hst; [| by left].
      apply elem_of_union in Hu as [->%elem_of_singleton | Hu]; [| by left].
      right. exists s. split; [left | done].
    + intros [Hu | (s' & Hs' & Hb & Hst & Hp)].
      * left. destruct (out_of_bounds E s); [done |].
        destruct (stale E s); [set_solver | done].
      * apply elem_of_cons in Hs' as [-> | Hs'].
        -- left. rewrite Hb, Hst. set_solver.
        -- right. by exists s'.
Qed.

Lemma seen_despawn_times_dom i d q :
  i ∈ dom (seen_despawn_times E d q)
  ↔ i ∈ dom d ∨ ∃ s, s ∈ q ∧ recorded E s ∧ spawn_id s = i.
Proof.
  unfold seen_despawn_times, recorded. revert d.
  induction q as [|s q IH]; intros d.
  - simpl. split; [by left | intros [? | (s & Hs & _)]; [done | inversion Hs]].
  - cbn [foldl]. rewrite IH. split.
    + intros [Hd | (s' & Hs' & ?)]; [| right; exists s'; split; [by right | done]].
      destruct (out_of_bounds E s) eqn:Hb; [by left |].
      destruct (stale E s) eqn:Hst; [by left |].
      rewrite dom_insert_L in Hd.
      apply elem_of_union in Hd as [->%elem_of_singleton | Hd]; [| by left].
      right. exists s. split; [left | done].
    + intros [Hd | (s' & Hs' & [Hb Hst] & Hi)].
      * left. destruct (out_of_bounds E s); [done |].
        destruct (stale E s); [done |]. rewrite dom_insert_L. set_solver.
      * apply elem_of_cons in Hs' as [-> | Hs'].
        -- left. rewrite Hb, Hst, dom_insert_L. set_solver.
        -- right. by exists s'.
Qed.

Lemma seen_known_keys p kn q :
  p ∈ od_keys (seen_known E kn q)
  ↔ p ∈ od_keys kn ∨ ∃ s, s ∈ q ∧ recorded E s ∧ point_of s = p.
Proof.
  unfold seen_known, recorded. revert kn.
  induction q as [|s q IH]; intros kn.
  - simpl. split; [by left | intros [? | (s & Hs & _)]; [done | inversion Hs]].
  - cbn [foldl]. rewrite IH. split.
    + intros [Hk | (s' & Hs' & ?)]; [| right; exists s'; split; [by right | done]].
      destruct (out_of_bounds E s) eqn:Hb; [by left |].
      destruct (stale E s) eqn:Hst; [by left |].
      rewrite od_keys_set in Hk.
      destruct (od_mem (point_of s) kn); [by left |].
      apply elem_of_app in Hk as [Hk | ->%list_elem_of_singleton]; [by left |].
      right. exists s. split; [left | done].
    + intros [Hk | (s' & Hs' & [Hb Hst] & Hp)].
      * left. destruct (out_of_bounds E s); [done |].
        destruct (stale E s); [done |]. rewrite od_keys_set.
        destruct (od_mem (point_of s) kn); [done |].
        apply elem_of_app. by left.
      * apply elem_of_cons in Hs' as [-> | Hs'].
        -- left. rewrite Hb, Hst, <- Hp. apply od_mem_true.
           unfold od_mem. rewrite od_get_set_eq.
           apply bool_decide_eq_true_2. by eexists.
        -- right. by exists s'.
Qed.

(** rows beyond the boundary pass through the loop without a trace *)
Lemma seen_filter_bounds alts a u d kn q :
  let q' := filter (λ s, out_of_bounds E s = false) q in
  seen_altitudes E alts a q = seen_altitudes E alts a q'
  ∧ seen_unknown E u q = seen_unknown E u q'
  ∧ seen_despawn_times E d q = seen_despawn_times E d q'
  ∧ seen_known E kn q = seen_known E kn q'.
Proof.
  unfold seen_altitudes, seen_unknown, seen_despawn_times, seen_known.
  revert a u d kn. induction q as [|s q IH]; intros a u d kn; [done |].
  cbn zeta in *. rewrite filter_cons. cbn [foldl].
  destruct (out_of_bounds E s) eqn:Hb.
  - rewrite decide_False by done. apply IH.
  - rewrite decide_True by done. cbn [foldl]. rewrite Hb. apply IH.
Qed.

Lemma seen_despawn_times_union d q :
  seen_despawn_times E d q = seen_despawn_times E ∅ q ∪ d.
Proof.
  unfold seen_despawn_times.
  induction q as [|s q IH] using rev_ind;
    [simpl; by rewrite (left_id_L ∅ (∪)) |].
  rewrite !foldl_app. cbn [foldl]. rewrite IH.
  destruct (out_of_bounds E s); [done |].
  destruct (stale E s); [done |]. by rewrite insert_union_l.
Qed.

Lemma seen_altitudes_off a q : seen_altitudes E false a q = a.
Proof.
  unfold seen_altitudes. revert a. induction q as [|s q IH]; intros a; [done |].
  cbn [foldl]. rewrite <- (IH a) at 2. f_equal.
  destruct (out_of_bounds E s); [done |]. by destruct (alt s).
Qed.

Lemma seen_altitudes_other alts a q k :
  (∀ s, s ∈ q → out_of_bounds E s = false → is_Some (alt s) →
        round_coords E (point_of s) (ALT_PRECISION (conf E)) ≠ k) →
  seen_altitudes E alts a q !! k = a !! k.
Proof.
  unfold seen_altitudes. revert a. induction q as [|s q IH]; intros a Hq; [done |].
  cbn [foldl]. rewrite IH by (intros; apply Hq; [by right | done | done]).
  destruct (out_of_bounds E s) eqn:Hb; [done |].
  destruct (alt s) as [v|] eqn:Hv; [| done].
  destruct alts; [| done].
  apply lookup_insert_ne. apply Hq; [left | done | by eexists].
Qed.

Lemma seen_altitudes_none alts a q :
  (∀ s, s ∈ q → out_of_bounds E s = false → alt s = None) →
  seen_altitudes E alts a q = a.
Proof.
  unfold seen_altitudes. revert a. induction q as [|s q IH]; intros a Hq; [done |].
  cbn [foldl]. rewrite IH by (intros; apply Hq; [by right | done]).
  destruct (out_of_bounds E s) eqn:Hb; [done |].
  by rewrite (Hq s) by (done || left).
Qed.

Lemma size_zero_empty {K V} `{Countable K} (m : gmap K V) :
  bool_decide (size m = 0%nat) = bool_decide (m = ∅).
Proof. apply bool_decide_ext, map_size_empty_iff. Qed.

(** X1: after [update], the unknown set holds what it held before and the
    points of the rows inside the boundary that are not newer than the last
    migration; nothing leaves it. *)
Theorem update_unknown rows self p :
  p ∈ unknown (update E rows self)
  ↔ p ∈ unknown self
    ∨ ∃ s, s ∈ query E rows ∧ out_of_bounds E s = false
           ∧ stale E s = true ∧ point_of s = p.
Proof. rewrite update_unfold. cbn. apply seen_unknown_elem. Qed.

(** X2: [update] never drops an identifier from [despawn_times]: the
    identifiers afterwards are those from before and those of the recorded
    rows, and an identifier that no recorded row carries keeps its value. *)
Theorem update_despawn_times_kept rows self i :
  (i ∈ dom (despawn_times (update E rows self))
   ↔ i ∈ dom (despawn_times self)
     ∨ ∃ s, s ∈ query E rows ∧ recorded E s ∧ spawn_id s = i)
  ∧ ((∀ s, s ∈ query E rows → recorded E s → spawn_id s ≠ i) →
     despawn_times (update E rows self) !! i = despawn_times self !! i).
Proof.
  split.
  - rewrite update_unfold. cbn. apply seen_despawn_times_dom.
  - intros Hno. rewrite update_despawn_times.
    by apply update_loop_despawn_other.
Qed.

(** X3: the known mapping [update] builds has one entry for each point of a
    recorded row and no other, and does not depend on what the instance held
    before. *)
Theorem update_known_keys rows self self' p :
  (p ∈ od_keys (known (update E rows self))
   ↔ ∃ s, s ∈ query E rows ∧ recorded E s ∧ point_of s = p)
  ∧ od_wf (known (update E rows self))
  ∧ known (update E rows self) = known (update E rows self').
Proof.
  split_and!.
  - rewrite update_unfold. cbn [known]. rewrite od_keys_fmap. unfold od_keys.
    rewrite sorted_by_Permutation.
    rewrite (seen_known_keys p [] (query E rows)). unfold od_keys. simpl.
    split; [intros [Hnil | ?]; [inversion Hnil | done] | by right].
  - apply update_known_wf.
  - by rewrite !update_unfold.
Qed.

(** X4: a row beyond the boundary has no effect on [update]: two lists of
    rows that agree on the rows the boundary keeps give the same instance. *)
Theorem update_ignores_out_of_bounds rows rows' self :
  filter (λ s, out_of_bounds E s = false) (query E rows)
  = filter (λ s, out_of_bounds E s = false) (query E rows') →
  update E rows self = update E rows' self.
Proof.
  intros Hq. rewrite !update_unfold. cbn zeta.
  destruct (seen_filter_bounds
              (bool_decide (size (altitudes self) = 0%nat))
              (altitudes self) (unknown self) (despawn_times self) []
              (query E rows)) as (-> & -> & -> & ->).
  destruct (seen_filter_bounds
              (bool_decide (size (altitudes self) = 0%nat))
              (altitudes self) (unknown self) (despawn_times self) []
              (query E rows')) as (-> & -> & -> & ->).
  by rewrite Hq.
Qed.

(** X5: when the altitude cache holds anything, [update] leaves it as it
    is. *)
Theorem update_keeps_altitudes rows self :
  altitudes self ≠ ∅ →
  altitudes (update E rows self) = altitudes self.
Proof.
  intros Hne. rewrite update_unfold. cbn.
  rewrite (size_zero_empty (altitudes self)).
  rewrite (bool_decide_eq_false_2 (altitudes self = ∅)) by done.
  rewrite seen_altitudes_off, size_zero_empty.
  by rewrite bool_decide_eq_false_2.
Qed.

(** X6: when the altitude cache is empty, [update] fills it from the rows
    inside the boundary, stale ones included: the rounded point of such a
    row gets the altitude of the row, unless a later row overwrites it.  If
    no such row carries an altitude the cache becomes what
    [get_all_altitudes(bound)] returns. *)
Theorem update_seeds_altitudes rows self :
  altitudes self = ∅ →
  ((∀ s, s ∈ query E rows → out_of_bounds E s = false → alt s = None) →
   altitudes (update E rows self)
   = get_all_altitudes E (Some (BOUNDARIES (conf E))))
  ∧ (∀ q1 s q2 v,
       query E rows = q1 ++ s :: q2 →
       out_of_bounds E s = false →
       alt s = Some v →
       (∀ s', s' ∈ q2 → out_of_bounds E s' = false → is_Some (alt s') →
              round_coords E (point_of s') (ALT_PRECISION (conf E))
              ≠ round_coords E (point_of s) (ALT_PRECISION (conf E))) →
       altitudes (update E rows self)
         !! round_coords E (point_of s) (ALT_PRECISION (conf E)) = Some v).
Proof.
  intros Hempty. rewrite update_unfold. cbn. rewrite Hempty.
  rewrite map_size_empty, (bool_decide_eq_true_2 (0%nat = 0%nat)) by done.
  split.
  - intros Hnone. rewrite seen_altitudes_none by done.
    by rewrite map_size_empty, (bool_decide_eq_true_2 (0%nat = 0%nat)).
  - intros q1 s q2 v Hq Hb Hv Hlater.
    assert (seen_altitudes E true ∅ (query E rows)
              !! round_coords E (point_of s) (ALT_PRECISION (conf E))
            = Some v) as Hget.
    { rewrite Hq.
      replace (seen_altitudes E true ∅ (q1 ++ s :: q2))
        with (seen_altitudes E true
                (<[round_coords E (point_of s) (ALT_PRECISION (conf E)) := v]>
                   (seen_altitudes E true ∅ q1)) q2)
        by (unfold seen_altitudes; rewrite foldl_app; cbn [foldl];
            by rewrite Hb, Hv).
      rewrite seen_altitudes_other by done.
      apply lookup_insert_eq. }
    rewrite bool_decide_eq_false_2; [done |].
    apply (map_size_ne_0_lookup_2 _ _ (mk_is_Some _ _ Hget)).
Qed.

(** X7: [update] is idempotent: a second reconciliation over the same rows
    changes nothing. *)
Theorem update_idempotent rows self :
  update E rows (update E rows self) = update E rows self.
Proof.
  rewrite (update_unfold rows (update E rows self)).
  rewrite !(update_unfold rows self). cbn.
  set (q := query E rows).
  set (bulk := get_all_altitudes E (Some (BOUNDARIES (conf E)))).
  f_equal.
  - rewrite (seen_despawn_times_union (seen_despawn_times _ _ _)),
      (seen_despawn_times_union (despawn_times self)).
    by rewrite (assoc_L (∪)), (idemp_L (∪) (seen_despawn_times E ∅ q)).
  - apply set_eq. intros p. rewrite !seen_unknown_elem. tauto.
  - rewrite !size_zero_empty.
    assert (bool_decide ((∅ : gmap (Coord * Coord) Q) = ∅) = true) as Hyes
      by by apply bool_decide_eq_true_2.
    destruct (decide (altitudes self = ∅)) as [Ha|Ha].
    + rewrite Ha, Hyes.
      destruct (decide (seen_altitudes E true ∅ q = ∅)) as [Hs|Hs].
      * rewrite Hs, Hyes.
        destruct (decide (bulk = ∅)) as [Hb|Hb].
        -- rewrite Hb, Hyes, Hs, Hyes. done.
        -- assert (bool_decide (bulk = ∅) = false) as Hno
             by by apply bool_decide_eq_false_2.
           rewrite Hno, seen_altitudes_off, Hno. done.
      * assert (bool_decide (seen_altitudes E true ∅ q = ∅) = false) as Hno
          by by apply bool_decide_eq_false_2.
        rewrite Hno. cbv iota. rewrite Hno, seen_altitudes_off, Hno. done.
    + assert (bool_decide (altitudes self = ∅) = false) as Hno
        by by apply bool_decide_eq_false_2.
      rewrite Hno, seen_altitudes_off, Hno. cbv iota.
      rewrite Hno, seen_altitudes_off, Hno. done.
Qed.

End update_more.

Lemma update_ignores_out_of_bounds_witness :
  update scenario_env_bounded (scenario_rows ++ [scenario_stale_row])
    (MoreSpawns_init scenario_env_bounded)
  = update scenario_env_bounded scenario_rows
      (MoreSpawns_init scenario_env_bounded).
Proof.
  apply (update_ignores_out_of_bounds scenario_env_bounded).
  vm_compute. reflexivity.
Defined.

Lemma update_keeps_altitudes_witness :
  altitudes (update scenario_env (scenario_rows ++ [scenario_stale_row])
               scenario_cached)
  = altitudes scenario_cached.
Proof.
  apply (update_keeps_altitudes scenario_env).
  intros Heq. apply (f_equal (λ m, m !! (8, 9))) in Heq.
  vm_compute in Heq. discriminate.
Defined.

Lemma update_seeds_altitudes_witness :
  altitudes (update scenario_env (scenario_rows ++ [scenario_stale_row])
               (MoreSpawns_init scenario_env)) !! (7, 8) = Some 12%Q.
Proof.
  apply (proj2 (update_seeds_altitudes scenario_env
                  (scenario_rows ++ [scenario_stale_row])
                  (MoreSpawns_init scenario_env) eq_refl)
           scenario_rows scenario_stale_row []).
  - reflexivity.
  - reflexivity.
  - reflexivity.
  - intros s' Hs'. inversion Hs'.
Defined.

(** ** The altitude cache *)

Section altitude_more.
Context {Coord : Type} `{Countable Coord} (E : Env Coord).
Implicit Types (self : spawns Coord) (o : alt_oracle Coord)
  (point : Coord * Coord).

(** X8: an altitude that was fetched is served from the cache afterwards:
    the next call for the point returns it without asking the service and
    without changing the instance. *)
Theorem get_altitude_cached_after_fetch o o' point randomize self a :
  altitudes self !! round_coords E point (ALT_PRECISION (conf E)) = None →
  fetch o (round_coords E point (ALT_PRECISION (conf E))) = Returned a →
  get_altitude E o' point 0 (get_altitude E o point randomize self).2
  = (Returned a, (get_altitude E o point randomize self).2).
Proof.
  intros Hmiss Ha. unfold get_altitude at 2 3. rewrite Hmiss, Ha. cbn [snd].
  unfold get_altitude. cbn [altitudes set_altitudes].
  by rewrite lookup_insert_eq.
Qed.

(** X9: [get_altitude] touches nothing but the altitude cache, and in the
    cache it only adds: every altitude stored before is still there, and no
    key other than the rounded point changes. *)
Theorem get_altitude_frame o point randomize self :
  let self' := (get_altitude E o point randomize self).2 in
  known self' = known self
  ∧ despawn_times self' = despawn_times self
  ∧ unknown self' = unknown self
  ∧ cell_points self' = cell_points self
  ∧ altitudes self ⊆ altitudes self'
  ∧ ∀ k, k ≠ round_coords E point (ALT_PRECISION (conf E)) →
         altitudes self' !! k = altitudes self !! k.
Proof.
  unfold get_altitude.
  destruct (altitudes self !! _) as [a|] eqn:Hget; [by cbn |].
  destruct (fetch o _) as [a|e]; cbn.
  - split_and!; try done.
    + by apply insert_subseteq.
    + intros k Hk. by apply lookup_insert_ne.
  - by destruct e.
Qed.

(** X10: [get_altitude] raises only when the point is not cached and the
    fetch raised something that is no [Exception]; it raises the same, and
    the instance is then as before. *)
Theorem get_altitude_raises o point randomize self e :
  ((get_altitude E o point randomize self).1 = Raised e
   ↔ altitudes self !! round_coords E point (ALT_PRECISION (conf E)) = None
     ∧ fetch o (round_coords E point (ALT_PRECISION (conf E))) = Raised e
     ∧ is_exception e = false)
  ∧ ((get_altitude E o point randomize self).1 = Raised e →
     (get_altitude E o point randomize self).2 = self).
Proof.
  unfold get_altitude.
  destruct (altitudes self !! _) as [a|] eqn:Hget.
  { cbn. split; [split; [done | intros [? _]; done] | done]. }
  destruct (fetch o _) as [a|e'].
  { cbn. split; [split; [done | intros (_ & ? & _); done] | done]. }
  destruct e'; cbn; (split; [split | done]);
    try done; try (intros (_ & [= <-] & ?); done).
  intros [= <-]. done.
Qed.

End altitude_more.

Lemma get_altitude_cached_after_fetch_witness :
  (get_altitude scenario_env scenario_oracle (8, 9) 0
     (get_altitude scenario_env scenario_oracle_ok (8, 9) 0 scenario_plain).2).1
  = Returned 310%Q.
Proof.
  rewrite (get_altitude_cached_after_fetch scenario_env scenario_oracle_ok
             scenario_oracle (8, 9) 0%Q scenario_plain 310%Q eq_refl eq_refl).
  reflexivity.
Defined.

(** ** Despawn instants, continued *)

Section despawn_more.
Context {Coord : Type} `{Countable Coord}.
Implicit Types (self : spawns Coord) (p : Coord * Coord).

Lemma get_current_hour_next now :
  get_current_hour (now + 3600) = get_current_hour now + 3600.
Proof.
  unfold get_current_hour.
  replace (now + 3600) with (now + 1 * 3600) by lia.
  rewrite Z_mod_plus_full. lia.
Qed.

Lemma despawn_instant_second d hour k :
  hour mod 3600 = 0 → (d + hour + k * 3600) mod 3600 = d mod 3600.
Proof.
  intros Hh. rewrite Z_mod_plus_full, Z.add_mod, Hh, Z.add_0_r by lia.
  apply Z.mod_mod. lia.
Qed.

(** X11: [get_despawn_time] is periodic: an observation one hour later
    gets the instant one hour later. *)
Theorem get_despawn_time_periodic spawn_id seen self :
  get_despawn_time spawn_id (seen + 3600) self
  = (λ t, t + 3600) <$> get_despawn_time spawn_id seen self.
Proof.
  unfold get_despawn_time. rewrite get_current_hour_next.
  destruct (despawn_times self !! spawn_id) as [d|]; [| done]. cbn.
  f_equal.
  destruct (Z.gtb_spec (seen + 3600) (d + (get_current_hour seen + 3600)));
    destruct (Z.gtb_spec seen (d + get_current_hour seen)); lia.
Qed.

(** X12: for a stored despawn second in [0, 3600), the instant returned is
    the first one at or after the observation whose second of the hour is
    the stored one. *)
Theorem get_despawn_time_next_occurrence spawn_id seen self d :
  despawn_times self !! spawn_id = Some d →
  0 ≤ d < 3600 →
  ∃ t, get_despawn_time spawn_id seen self = Some t
       ∧ t mod 3600 = d
       ∧ seen ≤ t
       ∧ ∀ t', seen ≤ t' → t' mod 3600 = d → t ≤ t'.
Proof.
  intros Hd Hrange. unfold get_despawn_time. rewrite Hd.
  destruct (get_current_hour_spec seen) as [Hmod Hh].
  set (hour := get_current_hour seen) in *.
  eexists. split; [reflexivity |].
  assert (∀ t', t' mod 3600 = d → ∃ k, t' = d + 3600 * k) as Hform.
  { intros t' Ht'. exists (t' `div` 3600).
    pose proof (Z.div_mod t' 3600 ltac:(lia)). lia. }
  destruct (Hform (d + hour)) as [k0 Hk0].
  { rewrite <- (Z.mod_small d 3600) at 2 by lia.
    replace (d + hour) with (d + hour + 0 * 3600) by lia.
    by apply despawn_instant_second. }
  destruct (Z.gtb_spec seen (d + hour)); split_and!.
  - rewrite <- (Z.mod_small d 3600) at 2 by lia.
    replace (d + hour + 3600) with (d + hour + 1 * 3600) by lia.
    by apply despawn_instant_second.
  - lia.
  - intros t' Hle Ht'. destruct (Hform t' Ht') as [k ->]. lia.
  - rewrite <- (Z.mod_small d 3600) at 2 by lia.
    replace (d + hour) with (d + hour + 0 * 3600) by lia.
    by apply despawn_instant_second.
  - lia.
  - intros t' Hle Ht'. destruct (Hform t' Ht') as [k ->]. lia.
Qed.

(** X13: a point confirmed with [add_known] has its despawn instant at
    once, the same in both variants, with the second of the hour that was
    given; the instants of the other identifiers do not change. *)
Theorem add_known_then_get_despawn_time i t p seen self :
  get_despawn_time i seen (Spawns_add_known i t p self)
  = get_despawn_time i seen (MoreSpawns_add_known i t p self)
  ∧ (∃ r, get_despawn_time i seen (Spawns_add_known i t p self) = Some r
          ∧ r mod 3600 = t mod 3600
          ∧ (0 ≤ t < 3600 → seen ≤ r < seen + 3600))
  ∧ ∀ j, j ≠ i →
      get_despawn_time j seen (Spawns_add_known i t p self)
      = get_despawn_time j seen self
      ∧ get_despawn_time j seen (MoreSpawns_add_known i t p self)
        = get_despawn_time j seen self.
Proof.
  unfold get_despawn_time. cbn. rewrite !lookup_insert_eq.
  destruct (get_current_hour_spec seen) as [Hmod Hh].
  split_and!; [done | |].
  - eexists. split; [reflexivity |]. split.
    + destruct (seen >? t + get_current_hour seen).
      * replace (t + get_current_hour seen + 3600)
          with (t + get_current_hour seen + 1 * 3600) by lia.
        by apply despawn_instant_second.
      * replace (t + get_current_hour seen)
          with (t + get_current_hour seen + 0 * 3600) by lia.
        by apply despawn_instant_second.
    + intros Ht. destruct (Z.gtb_spec seen (t + get_current_hour seen)); lia.
  - intros j Hj. by rewrite !lookup_insert_ne.
Qed.

End despawn_more.

Lemma get_despawn_time_next_occurrence_witness :
  ∃ t, get_despawn_time 2 7350 scenario_plain = Some t
       ∧ t mod 3600 = 200
       ∧ 7350 ≤ t
       ∧ ∀ t', 7350 ≤ t' → t' mod 3600 = 200 → t ≤ t'.
Proof.
  apply (get_despawn_time_next_occurrence 2 7350 scenario_plain 200).
  - vm_compute. reflexivity.
  - lia.
Defined.

(** ** Snapshots, continued *)

Section snapshot_more.
Context {Coord : Type} `{Countable Coord} (E : Env Coord).
Implicit Types (self : spawns Coord) (state : pickled Coord)
  (file : loaded Coord).

(** X14: a snapshot written under one configuration is accepted under
    another exactly when class version, database fingerprint, boundary hash
    and last migration are the same on both sides; a snapshot that is not
    accepted leaves the instance untouched. *)
Theorem unpickle_across_configurations (E0 : Env Coord) self self0 :
  ((BaseSpawns_unpickle E (pickle E0 self) self0).1 = true
   ↔ class_version self = class_version self0
     ∧ db_hash self = db_hash self0
     ∧ bounds_hash (bounds E0) = bounds_hash (bounds E)
     ∧ LAST_MIGRATION (conf E0) = LAST_MIGRATION (conf E))
  ∧ ((BaseSpawns_unpickle E (pickle E0 self) self0).1 = false →
     (BaseSpawns_unpickle E (pickle E0 self) self0).2 = self0).
Proof.
  unfold pickle, dump_pickle.
  destruct (compatible_dec E (pickle_state E0 self) self0) as [Hc|Hc].
  - rewrite unpickle_compatible by done. cbn [p_alt_precision pickle_state].
    destruct Hc as (Hcv & Hdh & Hbh & Hlm). cbn in Hcv, Hdh, Hbh, Hlm.
    split; [| by destruct (bool_decide _)].
    split; [intros _; split_and!; congruence | by destruct (bool_decide _)].
  - rewrite unpickle_incompatible by done. cbn. split; [| done].
    split; [done |]. intros (Hcv & Hdh & Hbh & Hlm). destruct Hc.
    unfold compatible. cbn. by rewrite Hcv, Hdh, Hbh, Hlm.
Qed.

(** X15: a dictionary that agrees on the four compared fields and has no
    altitude precision is refused, yet its attributes have already replaced
    those of the instance when [unpickle] returns false. *)
Theorem unpickle_missing_precision state self :
  compatible E state self →
  p_alt_precision state = None →
  BaseSpawns_unpickle E (PickleDict state) self
  = (false, dict_update state self)
  ∧ Spawns_unpickle E (PickleDict state) self
    = (false, set_cell_points None (dict_update state self)).
Proof.
  intros Hc Hap. unfold Spawns_unpickle.
  by rewrite unpickle_compatible, Hap.
Qed.

(** X16: in every other case a refused snapshot leaves the instance as it
    was. *)
Theorem unpickle_rejected file self :
  (BaseSpawns_unpickle E file self).1 = false →
  (BaseSpawns_unpickle E file self).2 = self
  ∨ ∃ state, file = PickleDict state ∧ compatible E state self
             ∧ p_alt_precision state = None.
Proof.
  destruct file as [| |state]; [by left | by left |].
  destruct (compatible_dec E state self) as [Hc|Hc].
  - rewrite unpickle_compatible by done.
    destruct (p_alt_precision state) as [ap|] eqn:Hap.
    + by destruct (bool_decide _).
    + intros _. right. by exists state.
  - rewrite unpickle_incompatible by done. by left.
Qed.

(** X17: what a round trip does to the attributes of the variants: the
    provisional points come back when the saved instance had them and stay
    those of the restoring instance otherwise; [cells_count] is never
    saved; the [unpickle] of [Spawns] ends without [cell_points]. *)
Theorem pickle_unpickle_variant_attributes self self0 :
  class_version self0 = class_version self →
  db_hash self0 = db_hash self →
  cell_points (BaseSpawns_unpickle E (pickle E self) self0).2
  = match cell_points self with
    | Some c => Some c
    | None => cell_points self0
    end
  ∧ cells_count (BaseSpawns_unpickle E (pickle E self) self0).2
    = cells_count self0
  ∧ cell_points (Spawns_unpickle E (pickle E self) self0).2 = None
  ∧ cells_count (Spawns_unpickle E (pickle E self) self0).2
    = cells_count self0.
Proof.
  intros Hcv Hdh. unfold Spawns_unpickle, pickle, dump_pickle.
  rewrite unpickle_compatible
    by (unfold compatible; cbn; by rewrite Hcv, Hdh).
  cbn [p_alt_precision pickle_state].
  rewrite bool_decide_eq_false_2 by (intros Hne; by apply Hne).
  done.
Qed.

End snapshot_more.

Lemma unpickle_missing_precision_witness :
  (BaseSpawns_unpickle scenario_env (PickleDict scenario_no_precision)
     (MoreSpawns_init scenario_env)).1 = false
  ∧ known (BaseSpawns_unpickle scenario_env (PickleDict scenario_no_precision)
             (MoreSpawns_init scenario_env)).2
    = known scenario_more.
Proof.
  destruct (unpickle_missing_precision scenario_env scenario_no_precision
              (MoreSpawns_init scenario_env)) as [-> _].
  - repeat split.
  - reflexivity.
  - split; reflexivity.
Defined.

Lemma unpickle_rejected_witness :
  (BaseSpawns_unpickle scenario_env_moved (pickle scenario_env scenario_more)
     (MoreSpawns_init scenario_env_moved)).2
  = MoreSpawns_init scenario_env_moved.
Proof.
  destruct (unpickle_rejected scenario_env_moved
              (pickle scenario_env scenario_more)
              (MoreSpawns_init scenario_env_moved)) as [Hsame | Hslip].
  - vm_compute. reflexivity.
  - exact Hsame.
  - destruct Hslip as (state & [= <-] & _ & Hap). discriminate.
Defined.

Lemma pickle_unpickle_variant_attributes_witness :
  cell_points (Spawns_unpickle scenario_env
                 (pickle scenario_env scenario_more)
                 (Spawns_init scenario_env)).2 = None
  ∧ cells_count (Spawns_unpickle scenario_env
                   (pickle scenario_env scenario_more)
                   (Spawns_init scenario_env)).2 = Some 0.
Proof.
  destruct (pickle_unpickle_variant_attributes scenario_env scenario_more
              (Spawns_init scenario_env) eq_refl eq_refl)
    as (_ & _ & Hcp & Hcc).
  split; [exact Hcp | exact Hcc].
Defined.

(** ** The registry, continued *)

Section registry_more.
Context {Coord : Type} `{Countable Coord}.
Implicit Types (self : spawns Coord) (c : call Coord)
  (calls : list (call Coord)) (p : Coord * Coord).

Lemma call_agree self1 self2 c :
  despawn_times self1 = despawn_times self2 →
  unknown self1 = unknown self2 →
  despawn_times (Spawns_call self1 c) = despawn_times (MoreSpawns_call self2 c)
  ∧ unknown (Spawns_call self1 c) = unknown (MoreSpawns_call self2 c).
Proof. intros Hd Hu. destruct c; cbn; by rewrite Hd, Hu. Qed.

(** X18: the two variants keep the same [despawn_times] and the same
    [unknown] set under any sequence of calls. *)
Theorem variants_agree calls self :
  despawn_times (Spawns_run calls self)
  = despawn_times (MoreSpawns_run calls self)
  ∧ unknown (Spawns_run calls self) = unknown (MoreSpawns_run calls self).
Proof.
  unfold Spawns_run, MoreSpawns_run.
  induction calls as [|c calls [IHd IHu]] using rev_ind; [done |].
  rewrite !foldl_app. cbn [foldl]. by apply call_agree.
Qed.

Lemma MoreSpawns_call_despawn_times self c i :
  despawn_times (MoreSpawns_call self c) !! i
  = match call_id c with
    | Some (j, t) => if decide (j = i) then Some t else despawn_times self !! i
    | None => despawn_times self !! i
    end.
Proof.
  destruct c as [j t q|q]; cbn; [| done].
  destruct (decide (j = i)) as [->|Hne];
    [apply lookup_insert_eq | by apply lookup_insert_ne].
Qed.

(** X19: in [despawn_times] the last [add_known] of an identifier wins, and
    an identifier that no call names keeps what it had; [add_unknown] never
    writes there. *)
Theorem last_add_known_wins calls self i :
  despawn_times (MoreSpawns_run calls self) !! i
  = match last (filter (λ c, fst <$> call_id c = Some i) calls) with
    | Some c => snd <$> call_id c
    | None => despawn_times self !! i
    end.
Proof.
  unfold MoreSpawns_run.
  induction calls as [|c calls IH] using rev_ind; [done |].
  rewrite foldl_app, filter_app, filter_cons, filter_nil. cbn [foldl].
  rewrite MoreSpawns_call_despawn_times, IH.
  destruct c as [j t q|q]; cbn.
  - destruct (decide (j = i)) as [->|Hne].
    + rewrite decide_True by done. by rewrite last_snoc.
    + rewrite decide_False by congruence. by rewrite app_nil_r.
  - rewrite decide_False by done. by rewrite app_nil_r.
Qed.

(** X20: the extended variant has seen every point that was passed to
    [add_known] or [add_unknown], and never stops having seen a point. *)
Theorem have_point_after_calls calls self p :
  p ∈ call_point <$> calls ∨ MoreSpawns_have_point p self = true →
  MoreSpawns_have_point p (MoreSpawns_run calls self) = true.
Proof.
  intros Hp. unfold MoreSpawns_have_point.
  rewrite MoreSpawns_run_in_known, MoreSpawns_run_in_unknown,
    MoreSpawns_run_in_cell_points.
  destruct (last_call_on p calls) as [c|] eqn:Hlast.
  - destruct (is_add_known c) eqn:Hk; [| by rewrite !orb_true_r].
    assert (call_point c = p ∧ c ∈ calls) as [Hcp Hc].
    { unfold last_call_on in Hlast. apply last_Some in Hlast as [l Hl].
      assert (c ∈ filter (λ c', call_point c' = p) calls) as Hf
        by (rewrite Hl; set_solver).
      by apply list_elem_of_filter in Hf. }
    assert (existsb (λ c', is_add_known c' && bool_decide (call_point c' = p))
              calls = true) as ->.
    { apply existsb_exists. exists c. split; [by apply list_elem_of_In |].
      by rewrite Hk, bool_decide_eq_true_2. }
    done.
  - apply last_call_on_None in Hlast.
    destruct Hp as [Hp | Hp]; [done |].
    unfold MoreSpawns_have_point in Hp.
    destruct (in_cell_points p self), (in_known p self), (in_unknown p self);
      try done; by rewrite ?orb_true_r.
Qed.

(** X21: [len] counts identifiers: [add_known] adds one for an identifier
    that is new and none for one already there, in both variants, and makes
    the registry true; [add_unknown] leaves [len] alone. *)
Theorem add_known_len i t p self :
  len (Spawns_add_known i t p self)
  = (if decide (i ∈ dom (despawn_times self)) then len self else len self + 1)
  ∧ len (MoreSpawns_add_known i t p self) = len (Spawns_add_known i t p self)
  ∧ to_bool (Spawns_add_known i t p self) = true
  ∧ len (Spawns_add_unknown p self) = len self
  ∧ len (MoreSpawns_add_unknown p self) = len self.
Proof.
  assert (len (Spawns_add_known i t p self)
          = if decide (i ∈ dom (despawn_times self)) then len self
            else len self + 1) as Hlen.
  { unfold len. cbn. rewrite map_size_insert.
    destruct (decide (i ∈ dom (despawn_times self))) as [Hi|Hi].
    - apply elem_of_dom in Hi as [v ->]. done.
    - apply not_elem_of_dom in Hi as ->. cbn. lia. }
  split_and!; try done.
  unfold to_bool. rewrite Hlen. apply Z.gtb_gt.
  unfold len. destruct (decide _) as [Hi|]; [| lia].
  apply elem_of_dom in Hi.
  pose proof (map_size_ne_0_lookup_2 _ _ Hi). lia.
Qed.

Lemma size_add p (u : gset (Coord * Coord)) :
  Z.of_nat (size ({[p]} ∪ u))
  = Z.of_nat (size u) + (if decide (p ∈ u) then 0 else 1).
Proof.
  destruct (decide (p ∈ u)) as [Hp|Hp].
  - replace ({[p]} ∪ u) with u by set_solver. lia.
  - rewrite size_union, size_singleton by set_solver. lia.
Qed.

Lemma size_discard p (u : gset (Coord * Coord)) :
  Z.of_nat (size (u ∖ {[p]}))
  = Z.of_nat (size u) - (if decide (p ∈ u) then 1 else 0).
Proof.
  destruct (decide (p ∈ u)) as [Hp|Hp].
  - rewrite size_difference, size_singleton by set_solver.
    assert (size ({[p]} : gset (Coord * Coord)) ≤ size u)%nat as Hle
      by (apply subseteq_size; set_solver).
    rewrite size_singleton in Hle. lia.
  - replace (u ∖ {[p]}) with u by set_solver. lia.
Qed.

(** X22: [total_length] of the extended variant counts a point once while
    the calls move it between the buckets: [add_unknown] adds one for a
    point new to [unknown] and takes one off for a provisional point;
    [add_known] adds one for a new identifier and takes one off for each of
    [unknown] and [cell_points] the point was in. *)
Theorem MoreSpawns_total_length_calls i t p self cp :
  cell_points self = Some cp →
  MoreSpawns_total_length (MoreSpawns_add_unknown p self)
  = (λ n, n + (if decide (p ∈ unknown self) then 0 else 1)
            - (if decide (p ∈ cp) then 1 else 0))
      <$> MoreSpawns_total_length self
  ∧ MoreSpawns_total_length (MoreSpawns_add_known i t p self)
    = (λ n, n + (if decide (i ∈ dom (despawn_times self)) then 0 else 1)
              - (if decide (p ∈ unknown self) then 1 else 0)
              - (if decide (p ∈ cp) then 1 else 0))
        <$> MoreSpawns_total_length self.
Proof.
  intros Hcp. unfold MoreSpawns_total_length, MoreSpawns_cells_count.
  cbn. rewrite Hcp. cbn. split; f_equal.
  - rewrite size_add, size_discard. unfold len. cbn. lia.
  - rewrite !size_discard. unfold len. cbn. rewrite map_size_insert.
    destruct (decide (i ∈ dom (despawn_times self))) as [Hi|Hi].
    + apply elem_of_dom in Hi as [v ->]. cbn. lia.
    + apply not_elem_of_dom in Hi as ->. cbn. lia.
Qed.


(** X24: [mystery_gen] of the plain variant yields every unknown point
    once; a point passed to [add_unknown] is among them and a point passed
    to [add_known] is not. *)
Theorem Spawns_mystery_gen_calls i t p self :
  NoDup (Spawns_mystery_gen self)
  ∧ (∀ x, x ∈ Spawns_mystery_gen self ↔ x ∈ unknown self)
  ∧ p ∈ Spawns_mystery_gen (Spawns_add_unknown p self)
  ∧ p ∉ Spawns_mystery_gen (Spawns_add_known i t p self).
Proof.
  unfold Spawns_mystery_gen. split_and!.
  - apply NoDup_elements.
  - intros x. apply elem_of_elements.
  - apply elem_of_elements. cbn. set_solver.
  - rewrite elem_of_elements. cbn. set_solver.
Qed.

End registry_more.

Lemma have_point_after_calls_witness :
  MoreSpawns_have_point (5, 6)
    (MoreSpawns_run [AddUnknown (5, 6); AddKnown 9 300 (5, 6)] scenario_more)
  = true.
Proof.
  apply (have_point_after_calls
           [AddUnknown (5, 6); AddKnown 9 300 (5, 6)] scenario_more (5, 6)).
  left. vm_compute. left.
Defined.

Lemma MoreSpawns_total_length_calls_witness :
  MoreSpawns_total_length (MoreSpawns_add_known 9 300 (5, 6) scenario_more)
  = Some 3.
Proof.
  rewrite (proj2 (MoreSpawns_total_length_calls 9 300 (5, 6) scenario_more ∅
                    eq_refl)).
  vm_compute. reflexivity.
Defined.


(** ** Reconciliation and the queries *)

Section update_queries.
Context {Coord : Type} `{Countable Coord} (E : Env Coord).
Implicit Types (self : spawns Coord) (s : Spawnpoint Coord)
  (q rows : list (Spawnpoint Coord)).

Lemma after_last_sorted now self :
  od_wf (known self) →
  known_sorted (known self) →
  after_last now self = true
  ↔ known self ≠ []
    ∧ Forall (λ sec, sec < now mod 3600) (known_seconds (known self)).
Proof.
  intros Hwf Hsorted. rewrite after_last_last by done.
  destruct (decide (known self = [])) as [Hnil|Hne].
  { rewrite Hnil. simpl. split; [done | intros [? _]; done]. }
  destruct (known_sorted_last_is_max _ Hsorted Hne)
    as (p & i & sec & Hlast & Hmax).
  rewrite Hlast, Z.gtb_gt. split.
  - intros Hgt. split; [done |].
    eapply Forall_impl; [exact Hmax |]. simpl. intros; lia.
  - intros [_ Hall]. destruct Hsorted as (secs & Hsecs & _).
    rewrite (known_seconds_sorted _ _ Hsecs) in Hall.
    assert (last (entry_seconds <$> known self) = Some (Some sec)) as Hl
      by (by rewrite fmap_last, Hlast).
    rewrite Hsecs, fmap_last in Hl.
    destruct (last secs) as [sec'|] eqn:Hs; [| done]. injection Hl as ->.
    apply last_Some in Hs as [secs' ->].
    rewrite Forall_app, Forall_singleton in Hall. lia.
Qed.

Lemma update_known_nonempty rows self :
  known (update E rows self) ≠ [] ↔ ∃ s, s ∈ query E rows ∧ recorded E s.
Proof.
  rewrite update_unfold. cbn [known]. split.
  - intros Hne.
    destruct (seen_known E [] (query E rows)) as [|[p v] kn] eqn:Hkn;
      [by destruct Hne |].
    assert (p ∈ od_keys (seen_known E [] (query E rows))) as Hp
      by (rewrite Hkn; left).
    apply seen_known_keys in Hp as [Hp | (s & Hs & Hr & _)];
      [inversion Hp | by exists s].
  - intros (s & Hs & Hr) Hnil.
    assert (point_of s ∈ od_keys (seen_known E [] (query E rows))) as Hp
      by (apply seen_known_keys; right; by exists s).
    apply fmap_nil_inv in Hnil.
    pose proof (sorted_by_Permutation (λ e : Coord * Coord * (Z * Z), e.2.2)
                  (seen_known E [] (query E rows))) as Hperm.
    rewrite Hnil in Hperm. symmetry in Hperm.
    apply Permutation_nil_r in Hperm. rewrite Hperm in Hp. inversion Hp.
Qed.

(** X25: right after [update], [after_last] is true exactly when some row
    was recorded and the current second of the hour exceeds the seconds of
    every entry of the known mapping. *)
Theorem after_last_after_update now rows self :
  after_last now (update E rows self) = true
  ↔ (∃ s, s ∈ query E rows ∧ recorded E s)
    ∧ Forall (λ sec, sec < now mod 3600)
        (known_seconds (known (update E rows self))).
Proof.
  rewrite after_last_sorted
    by (apply update_known_wf || apply update_known_sorted).
  by rewrite update_known_nonempty.
Qed.

(** X26: the despawn instant of a recorded row comes from its raw despawn
    second, also when the duration is not 60: for a raw second in
    [0, 3600) the instant returned after [update] has that second of the
    hour and lies within the hour that follows the observation. *)
Theorem update_then_get_despawn_time rows q1 s q2 self seen :
  query E rows = q1 ++ s :: q2 →
  recorded E s →
  (∀ s', s' ∈ q2 → recorded E s' → spawn_id s' ≠ spawn_id s) →
  0 ≤ despawn_time s < 3600 →
  ∃ t, get_despawn_time (spawn_id s) seen (update E rows self) = Some t
       ∧ t mod 3600 = despawn_time s
       ∧ seen ≤ t < seen + 3600.
Proof.
  intros Hq Hr Hlater Hrange.
  assert (despawn_times (update E rows self) !! spawn_id s
          = Some (despawn_time s)) as Hd.
  { rewrite update_despawn_times, Hq, foldl_app. simpl.
    set (alts := bool_decide _).
    destruct (foldl (update_step E alts) (self, []) q1) as [self1 kn1].
    destruct (update_step_recorded E alts self1 kn1 s Hr)
      as (self2 & -> & Hd & _).
    rewrite update_loop_despawn_other by done.
    rewrite Hd. apply lookup_insert_eq. }
  unfold get_despawn_time. rewrite Hd.
  destruct (get_current_hour_spec seen) as [Hmod Hh].
  eexists. split; [reflexivity |].
  destruct (Z.gtb_spec seen (despawn_time s + get_current_hour seen)).
  - split; [| lia].
    replace (despawn_time s + get_current_hour seen + 3600)
      with (despawn_time s + get_current_hour seen + 1 * 3600) by lia.
    rewrite despawn_instant_second by done. apply Z.mod_small. lia.
  - split; [| lia].
    replace (despawn_time s + get_current_hour seen)
      with (despawn_time s + get_current_hour seen + 0 * 3600) by lia.
    rewrite despawn_instant_second by done. apply Z.mod_small. lia.
Qed.

End update_queries.

Lemma update_then_get_despawn_time_witness :
  ∃ t, get_despawn_time 2 7350 scenario_plain = Some t
       ∧ t mod 3600 = 200
       ∧ 7350 ≤ t < 7350 + 3600.
Proof.
  apply (update_then_get_despawn_time scenario_env scenario_rows
           [ {| spawn_id := 1; lat := 1; lon := 2; alt := None;
                updated := Some 2000; duration := 60;
                despawn_time := 100 |} ]
           scenario_half_hour_row [] (Spawns_init scenario_env) 7350).
  - reflexivity.
  - split; reflexivity.
  - intros s' Hs'. inversion Hs'.
  - cbn. lia.
Defined.
